(** * GALAXY-12.0: Last.fm scrobbling and the Spotify token cache

    A shallow embedding of [modules/lastfm.py] (the listeners
    [connect_vc_update], [update_np] and [startscrooble]) and of
    [utils/music/audio_sources/spotify.py] (the [SpotifyClient] methods
    [request], [get_access_token] and [get_valid_access_token]), followed by
    the properties of the specification stated over that embedding.

    Conventions of the embedding:
    - a [datetime] is the integer number of microseconds since the Unix
      epoch (the resolution of Python's [datetime]); a [timedelta] is a
      number of microseconds; [total_seconds()] is the float nearest to
      [us / 10^6];
    - a Python float is the rational it stands for, and every float
      operation is the exact operation followed by rounding to binary64
      ([Float64.fl]: to nearest, ties to even); the exponent range of binary64
      is not modelled, since elapsed times and track lengths stay far inside
      it; [time.time()] of the Spotify client is taken on an integer grid;
    - Python dictionaries are [gmap]s; a missing key raises [KeyError];
    - the outside world (the Last.fm service, the Spotify servers, the bot's
      own voice connection) is an explicit environment record, consulted
      with the history of calls made so far;
    - a loop of the source that has no static bound carries a fuel argument,
      and running out of fuel is a result of its own; the recursion of
      [SpotifyClient.request] carries the depth of recursion that the
      interpreter still allows, and ends with [RecursionError] when it is
      used up;
    - a [datetime] of the model is an unbounded integer: the [OverflowError]
      that Python raises outside the years 1 to 9999 is not modelled, and
      [LastFm.is_datetime] states the range where it matters. *)

From Stdlib Require Import ZArith QArith String List Lia.
From stdpp Require Import gmap strings list.

Open Scope string_scope.

(** ** Python string methods used by the source *)

Module PyStr.

(** [s.startswith(p)] *)
Definition startswith (s p : string) : bool := String.prefix p s.

(** [s.endswith(suf)] *)
Definition endswith (s suf : string) : bool :=
  let n := String.length s in
  let m := String.length suf in
  (m <=? n)%nat && String.eqb (String.substring (n - m) m s) suf.

(** [s[:-k]] for a positive literal [k] *)
Definition drop_last (k : nat) (s : string) : string :=
  String.substring 0 (String.length s - k) s.

(** [s.split(sep, maxsplit=1)] unpacked into two names: [None] stands for
    the [ValueError] raised when [sep] does not occur. *)
Definition split_once (sep s : string) : option (string * string) :=
  match String.index 0 sep s with
  | Some i =>
      let j := (i + String.length sep)%nat in
      Some (String.substring 0 i s, String.substring j (String.length s - j) s)
  | None => None
  end.

(** [s.split(sep)[0]] *)
Definition split_head (sep s : string) : string :=
  match String.index 0 sep s with
  | Some i => String.substring 0 i s
  | None => s
  end.

(** truth value of a string: the empty string is falsy *)
Definition truthy (s : string) : bool := negb (String.eqb s EmptyString).

End PyStr.

(** ** Binary64 rounding *)

Module Float64.

Open Scope Z_scope.

(** [n / d] rounded to the nearest integer, ties to even ([0 < d]). *)
Definition round_half_even (n d : Z) : Z :=
  let q := n / d in
  match 2 * (n mod d) ?= d with
  | Lt => q
  | Gt => q + 1
  | Eq => if Z.even q then q else q + 1
  end.

(** [2 ^ max 0 E]: the two factors that bring a scaling by [2 ^ E], for an
    exponent of either sign, to the integers. *)
Definition up (E : Z) : Z := 2 ^ Z.max 0 E.
Definition down (E : Z) : Z := 2 ^ Z.max 0 (- E).

(** The exponent [E] with [2 ^ E <= n / d < 2 ^ (E + 1)], for positive [n], [d]. *)
Definition ilog2 (n d : Z) : Z :=
  let l := Z.log2 n - Z.log2 d in
  if d * up l <=? n * down l then l else l - 1.

(** The binary64 number nearest to [n / d] (ties to even), for positive
    [n] and [d]: a 53-bit significand [q] at the exponent [e]. *)
Definition round_pos (n d : Z) : Q :=
  let e := ilog2 n d - 52 in
  let q := round_half_even (n * down e) (d * up e) in
  Qmake (q * up e) (Z.to_pos (down e)).

(** Rounding to binary64. *)
Definition fl (x : Q) : Q :=
  match Qnum x with
  | Z0 => 0%Q
  | Zpos n => round_pos (Zpos n) (Zpos (Qden x))
  | Zneg n => Qopp (round_pos (Zpos n) (Zpos (Qden x)))
  end.

(** [E] is the binary exponent of [n / d]. *)
Definition exponent_of (n d E : Z) : Prop :=
  d * up E <= n * down E < 2 * (d * up E).

(** One part in [2 ^ 53]. *)
Definition eps : Q := 1 # 9007199254740992.

(** [int(x)]: truncation toward zero. *)
Definition trunc (x : Q) : Z := Qnum x ÷ Zpos (Qden x).

End Float64.

(** ** modules/lastfm.py *)

Module LastFm.

Import PyStr.

(** The attributes of [LavalinkTrack] read by the listeners.  [sourceName]
    is [track.info["sourceName"]]; a missing album name ([None]) and an
    empty one are both falsy and are both the empty string here. *)
Record LavalinkTrack := {
  uri : string;
  url : string;
  title : string;
  single_title : string;
  author : string;
  album_name : string;
  duration : Z;
  sourceName : string;
  is_stream : bool;
  requester : Z;
  ytid : string;
  autoplay : bool
}.

(** The local variables [artist], [name], [album], [duration] computed
    between lines 471 and 499. *)
Record fields := {
  artist : string;
  name : string;
  album : string;
  duration_s : Z
}.

Definition in_list (s : string) (l : list string) : bool :=
  existsb (String.eqb s) l.

(** Lines 471-499 of [startscrooble].  [None] is the bare [return] taken for
    a youtube or soundcloud track without an album name. *)
Definition track_fields (track : LavalinkTrack) : option fields :=
  let duration := Float64.trunc (Float64.fl (duration track # 1000)) in
  let album :=
    if negb (truthy (album_name track)) && negb (autoplay track)
       && in_list (sourceName track) ["spotify"; "deezer"; "applemusic"; "tidal"]
    then single_title track else album_name track in
  if in_list (sourceName track) ["youtube"; "soundcloud"] then
    if negb (truthy (album_name track)) then None
    else
      let '(artist, name) :=
        if truthy (ytid track) then
          if endswith (author track) " - topic"
             && negb (endswith (author track) "Release - topic")
             && negb (startswith (title track) (drop_last 8 (author track)))
          then (drop_last 8 (author track), title track)
          else
            match split_once " - " (title track) with
            | Some (a, n) => (a, n)
            | None => (author track, title track)
            end
        else (author track, single_title track) in
      Some {| artist := split_head "," artist; name := name;
              album := album; duration_s := duration |}
  else
    Some {| artist := split_head "," (author track);
            name := single_title track;
            album := album; duration_s := duration |}.

(** *** Discord objects *)

Record VoiceState := {
  channel : option Z;
  self_deaf : bool;
  deaf : bool
}.

Record Member := {
  id : Z;
  bot : bool;
  guild_id : Z;
  voice : option VoiceState
}.

Record VoiceChannel := {
  channel_id : Z;
  members : list Member
}.

(** [member in channel.members]: members compare by id. *)
Definition member_in (m : Member) (l : list Member) : bool :=
  existsb (fun x => (id x =? id m)%Z) l.

(** *** Session data and scrobble marks *)

(** The ["lastfm"] sub-document of a user's global data, which is also the
    value cached in [bot.pool.lastfm_sessions]. *)
Record fminfo := {
  scrobble : bool;
  sessionkey : string;
  username : string
}.

Definition clear_sessionkey (f : fminfo) : fminfo :=
  {| scrobble := scrobble f; sessionkey := EmptyString; username := username f |}.

(** An entry of [player.lastfm_users]. *)
Record mark := {
  last_url : string;
  last_timestamp : option Z
}.

Record LavalinkPlayer := {
  guild : Z;
  start_time : Z;
  current : option LavalinkTrack;
  last_track : option LavalinkTrack;
  last_channel : option VoiceChannel;
  lastfm_users : gmap Z mark
}.

Definition set_lastfm_users (m : gmap Z mark) (p : LavalinkPlayer) : LavalinkPlayer :=
  {| guild := guild p; start_time := start_time p; current := current p;
     last_track := last_track p; last_channel := last_channel p;
     lastfm_users := m |}.

(** *** The Last.fm service *)

Record kwargs := {
  kw_artist : string;
  kw_track : string;
  kw_album : string;
  kw_duration : Z;
  kw_session_key : string;
  kw_chosen_by_user : option bool
}.

Inductive api_call :=
| update_nowplaying (k : kwargs)
| track_scrobble (k : kwargs).

Inductive api_result :=
| Ok
| LastFmException (code : Z)
| OtherException.

(** One record of the log of provider calls: the listener on whose behalf
    the call was made, and the call. *)
Definition call_record : Type := Z * api_call.

Definition is_scrobble (c : call_record) : bool :=
  match snd c with track_scrobble _ => true | update_nowplaying _ => false end.

Definition call_of (u : Z) (c : call_record) : bool := (fst c =? u)%Z.

(** *** Mutable state of the bot, and its environment *)

Record World := {
  utcnow : Z;
  lastfm_sessions : gmap Z fminfo;
  users_db : gmap Z fminfo;
  calls : list call_record
}.

Definition set_utcnow (t : Z) (w : World) : World :=
  {| utcnow := t; lastfm_sessions := lastfm_sessions w; users_db := users_db w;
     calls := calls w |}.

Definition set_lastfm_sessions (m : gmap Z fminfo) (w : World) : World :=
  {| utcnow := utcnow w; lastfm_sessions := m; users_db := users_db w;
     calls := calls w |}.

Definition set_users_db (m : gmap Z fminfo) (w : World) : World :=
  {| utcnow := utcnow w; lastfm_sessions := lastfm_sessions w; users_db := m;
     calls := calls w |}.

Definition log_call (c : call_record) (w : World) : World :=
  {| utcnow := utcnow w; lastfm_sessions := lastfm_sessions w;
     users_db := users_db w; calls := calls w ++ [c] |}.

(** What the listeners cannot decide themselves:
    - [me_voice g t]: [player.guild.me.voice] is set, for guild [g] at time [t];
    - [last_fm log u c]: the answer of the service to call [c] made for
      listener [u] after the calls of [log];
    - [default_lastfm]: the ["lastfm"] document that [get_global_data]
      yields for a user who has none stored. *)
Record Env := {
  me_voice : Z -> Z -> bool;
  last_fm : list call_record -> Z -> api_call -> api_result;
  default_lastfm : fminfo
}.

(** How a listener ends: it returns, an exception escapes it, or it is
    still inside the voice poll loop when the fuel is spent. *)
Inductive outcome (S : Type) :=
| Returned (s : S)
| Raised (s : S)
| Polling.

Arguments Returned {S} s.
Arguments Raised {S} s.
Arguments Polling {S}.

Section Listeners.

Variable e : Env.

(** [await self.bot.get_global_data(user.id, db_name=DBModel.users)["lastfm"]] *)
Definition get_global_data (w : World) (uid : Z) : fminfo :=
  default (default_lastfm e) (users_db w !! uid).

(** *** Lines 446-458: the guards on the event *)

(** [timedelta.total_seconds()]: the true division of two integers, which
    Python rounds correctly. *)
Definition total_seconds (us : Z) : Q := Float64.fl (us # 1000000).

Definition Qltb (a b : Q) : bool := negb (Qle_bool b a).

(** [(utcnow() - player.start_time).total_seconds() < (track.duration * 0.75) / 1000]:
    the duration is converted to a float, multiplied by 0.75 and divided by
    1000, each step rounding. *)
Definition played_too_little (w : World) (player : LavalinkPlayer)
    (track : LavalinkTrack) : bool :=
  Qltb (total_seconds (utcnow w - start_time player))
       (Float64.fl
          (Float64.fl (Float64.fl (inject_Z (duration track)) * (3 # 4))
           / inject_Z 1000)).

Definition is_finished (reason : option string) : bool :=
  match reason with
  | Some r => String.eqb r "FINISHED"
  | None => false
  end.

(** The event is dropped by one of the [return]s of lines 446-458. *)
Definition rejected (w : World) (player : LavalinkPlayer) (track : LavalinkTrack)
    (reason : option string) (update_np : bool) : bool :=
  if is_stream track || in_list (sourceName track) ["local"; "http"] then true
  else if negb update_np then
    if negb (is_finished reason) then true
    else if (duration track <? 20000)%Z then true
    else played_too_little w player track
  else false.

(** *** Lines 460-469: waiting for the bot's voice connection

    [counter] is the loop variable of the source, which the loop body never
    changes; each [asyncio.sleep(2)] moves the clock two seconds on.  The
    result is the time at which the loop is left. *)
Fixpoint wait_voice (fuel : nat) (g : Z) (counter : Z) (now : Z) : option Z :=
  match fuel with
  | O => None
  | S fuel' =>
      if (counter >? 0)%Z then
        if negb (me_voice e g now) then wait_voice fuel' g counter (now + 2000000)
        else Some now
      else Some now
  end.

(** *** Lines 501-555: the loop over the listeners *)

Definition resolve_session (w : World) (uid : Z) : fminfo * World :=
  match lastfm_sessions w !! uid with
  | Some f => (f, w)
  | None =>
      let f := get_global_data w uid in
      (f, set_lastfm_sessions (<[uid := f]> (lastfm_sessions w)) w)
  end.

Definition make_call (track : LavalinkTrack) (f : fields) (update_np : bool)
    (fm : fminfo) (uid : Z) : api_call :=
  let kw chosen :=
    {| kw_artist := artist f; kw_track := name f; kw_album := album f;
       kw_duration := duration_s f; kw_session_key := sessionkey fm;
       kw_chosen_by_user := chosen |} in
  if update_np then update_nowplaying (kw None)
  else if negb (requester track =? uid)%Z then track_scrobble (kw (Some false))
  else track_scrobble (kw None).

(** Lines 536-548: the session of [uid] was refused with code 9. *)
Definition invalidate (uid : Z) (st : World * LavalinkPlayer) : World * LavalinkPlayer :=
  let '(w, player) := st in
  let user_data := clear_sessionkey (get_global_data w uid) in
  let w := set_users_db (<[uid := user_data]> (users_db w)) w in
  let w := set_lastfm_sessions (delete uid (lastfm_sessions w)) w in
  (w, set_lastfm_users (delete uid (lastfm_users player)) player).

(** [datetime.min] and [datetime.max], in microseconds since the Unix epoch:
    the first microsecond of year 1 and the last one of year 9999.  Python
    raises [OverflowError] for a [datetime] outside them. *)
Definition datetime_min : Z := -62135596800000000.

Definition datetime_max : Z := 253402300799999999.

Definition is_datetime (t : Z) : Prop := (datetime_min <= t <= datetime_max)%Z.

(** One iteration of the [for user in ...] loop.  The expiry of the mark of
    lines 552-555 is computed on unbounded integers: where
    [utcnow() + timedelta(seconds=duration)] is no [datetime] the source
    raises [OverflowError] out of the listener, which this function does not
    show, and what is stated of a stored mark assumes [is_datetime] of its
    expiry. *)
Definition scrobble_user (track : LavalinkTrack) (f : fields) (update_np : bool)
    (st : World * LavalinkPlayer) (user : Member) : World * LavalinkPlayer :=
  if bot user then st
  else match voice user with
  | None => st
  | Some vs =>
    if self_deaf vs || deaf vs then st
    else
      let '(fm, w) := resolve_session (fst st) (id user) in
      let player := snd st in
      if negb (scrobble fm) || negb (truthy (sessionkey fm)) then (w, player)
      else
        let call := make_call track f update_np fm (id user) in
        let answer := last_fm e (calls w) (id user) call in
        let w := log_call (id user, call) w in
        match answer with
        | Ok =>
            let m := {| last_url := url track;
                        last_timestamp := Some (utcnow w + duration_s f * 1000000)%Z |} in
            (w, set_lastfm_users (<[id user := m]> (lastfm_users player)) player)
        | LastFmException code =>
            if (code =? 9)%Z then invalidate (id user) (w, player)
            else (w, player)
        | OtherException => (w, player)
        end
  end.

Fixpoint scrobble_users (track : LavalinkTrack) (f : fields) (update_np : bool)
    (st : World * LavalinkPlayer) (users : list Member) : World * LavalinkPlayer :=
  match users with
  | [] => st
  | user :: rest =>
      scrobble_users track f update_np (scrobble_user track f update_np st user) rest
  end.

(** [users or player.last_channel.members]; [None] is the [AttributeError]
    of a player without a channel. *)
Definition roster (users : option (list Member)) (player : LavalinkPlayer)
    : option (list Member) :=
  match users with
  | Some (u :: l) => Some (u :: l)
  | _ => option_map members (last_channel player)
  end.

(** *** The listener [startscrooble] ([on_wavelink_track_end]) *)
Definition startscrooble (fuel : nat) (w : World) (player : LavalinkPlayer)
    (track : option LavalinkTrack) (reason : option string) (update_np : bool)
    (users : option (list Member)) : outcome (World * LavalinkPlayer) :=
  match track with
  | None => Returned (w, player)
  | Some track =>
    if rejected w player track reason update_np then Returned (w, player)
    else
      match wait_voice fuel (guild player) 3 (utcnow w) with
      | None => Polling
      | Some t =>
        let w := set_utcnow t w in
        if negb (me_voice e (guild player) t) then Returned (w, player)
        else
          match track_fields track with
          | None => Returned (w, player)
          | Some f =>
            match roster users player with
            | None => Raised (w, player)
            | Some l => Returned (scrobble_users track f update_np (w, player) l)
            end
          end
      end
  end.

(** *** The listener [update_np] ([on_wavelink_track_start]) *)
Definition update_np (fuel : nat) (w : World) (player : LavalinkPlayer)
    : outcome (World * LavalinkPlayer) :=
  startscrooble fuel w player (last_track player) None true None.

(** *** The listener [connect_vc_update] ([on_voice_state_update]) *)

(** Lines 429-435: the member has a mark for the current track that has not
    expired yet. *)
Definition marked (w : World) (player : LavalinkPlayer) (cur : LavalinkTrack)
    (member : Member) : bool :=
  match lastfm_users player !! id member with
  | None => false
  | Some fm_user =>
      String.eqb (last_url fm_user) (uri cur)
      && match last_timestamp fm_user with
         | Some t => (utcnow w <? t)%Z
         | None => false
         end
  end.

Definition same_channel (a b : option Z) : bool :=
  match a, b with
  | Some x, Some y => (x =? y)%Z
  | None, None => true
  | _, _ => false
  end.

(** Lines 412-435: the player on which [startscrooble] is then called, or
    [None] when the listener returns before line 437. *)
Definition vc_target (players : gmap Z LavalinkPlayer) (w : World)
    (member : Member) (before after : VoiceState) : option LavalinkPlayer :=
  if bot member || negb (bool_decide (is_Some (channel after)))
     || same_channel (channel before) (channel after) then None
  else
    match players !! guild_id member with
    | None => None
    | Some player =>
      if negb (same_channel (option_map channel_id (last_channel player)) (channel after))
      then None
      else
        match current player, last_channel player with
        | Some cur, Some ch =>
            if negb (member_in member (members ch)) then None
            else if marked w player cur member then None
            else Some player
        | _, _ => None
        end
    end.

Definition connect_vc_update (fuel : nat) (players : gmap Z LavalinkPlayer)
    (w : World) (member : Member) (before after : VoiceState)
    : outcome (World * gmap Z LavalinkPlayer) :=
  match vc_target players w member before after with
  | None => Returned (w, players)
  | Some player =>
      match startscrooble fuel w player (last_track player) None false (Some [member]) with
      | Returned (w', player') => Returned (w', <[guild_id member := player']> players)
      | Raised (w', player') => Raised (w', <[guild_id member := player']> players)
      | Polling => Polling
      end
  end.

End Listeners.

(** *** Observations on the result of a listener *)


(** The provider calls logged when the listener is over. *)
Definition calls_made (o : outcome (World * LavalinkPlayer)) : list call_record :=
  match o with
  | Returned s | Raised s => calls (fst s)
  | Polling => []
  end.

(** Nothing that belongs to listener [u] differs between [st] and [st']:
    stored session, cached session, mark, and the calls made for [u]. *)
Definition untouched (u : Z) (st st' : World * LavalinkPlayer) : Prop :=
  users_db (fst st') !! u = users_db (fst st) !! u
  /\ lastfm_sessions (fst st') !! u = lastfm_sessions (fst st) !! u
  /\ lastfm_users (snd st') !! u = lastfm_users (snd st) !! u
  /\ List.filter (call_of u) (calls (fst st'))
     = List.filter (call_of u) (calls (fst st)).

End LastFm.

(** ** utils/music/audio_sources/spotify.py *)

Module Spotify.

Import PyStr.

(** The JSON values that occur in the token documents. *)
Inductive json :=
| JStr (s : string)
| JNum (n : Z)
| JNull.

Definition json_truthy (o : option json) : bool :=
  match o with
  | Some (JStr s) => truthy s
  | Some (JNum n) => negb (n =? 0)%Z
  | Some JNull | None => false
  end.

Definition opt_truthy (o : option string) : bool :=
  match o with
  | Some s => truthy s
  | None => false
  end.

Record SpotifyClient := {
  client_id : option string;
  client_secret : option string;
  spotify_cache : gmap string json;
  disabled : bool;
  type : string
}.

(** What the client does to the outside: the GET of [request] with the
    bearer token it carried and the status it got, the two ways of asking
    for a token, and the write of the cache file. *)
Inductive event :=
| GetApi (path : string) (params : list (string * string)) (token : json) (status : Z)
| GetVisitorToken
| PostApiToken (id secret : string)
| WriteCacheFile (cache : gmap string json).

(** The process: the client object, the cache file in the temporary
    directory, and the trace of events so far. *)
Record Proc := {
  client : SpotifyClient;
  cache_file : option (gmap string json);
  trace : list event
}.

(** The servers and the clock, each consulted with the trace so far. *)
Record Net := {
  time : list event -> Z;
  api : list event -> string -> list (string * string) -> json -> Z * string;
  visitor_token : list event -> gmap string json;
  api_token : list event -> string -> string -> gmap string json
}.

Inductive exn :=
| KeyError (key : string)
| TypeError
| GenericError
| ClientResponseError (status : Z)
| RecursionError.

(** A call returns or raises. *)
Inductive result (A : Type) :=
| Ret (a : A)
| Exc (x : exn).

Arguments Ret {A} a.
Arguments Exc {A} x.

Definition set_client (c : SpotifyClient) (p : Proc) : Proc :=
  {| client := c; cache_file := cache_file p; trace := trace p |}.

Definition emit (ev : event) (p : Proc) : Proc :=
  {| client := client p; cache_file := cache_file p; trace := trace p ++ [ev] |}.

Definition set_cache (m : gmap string json) (c : SpotifyClient) : SpotifyClient :=
  {| client_id := client_id c; client_secret := client_secret c;
     spotify_cache := m; disabled := disabled c; type := type c |}.

Definition set_type (t : string) (c : SpotifyClient) : SpotifyClient :=
  {| client_id := client_id c; client_secret := client_secret c;
     spotify_cache := spotify_cache c; disabled := disabled c; type := t |}.

Definition set_disabled (b : bool) (c : SpotifyClient) : SpotifyClient :=
  {| client_id := client_id c; client_secret := client_secret c;
     spotify_cache := spotify_cache c; disabled := b; type := type c |}.

Definition drop_credentials (c : SpotifyClient) : SpotifyClient :=
  {| client_id := None; client_secret := None;
     spotify_cache := spotify_cache c; disabled := disabled c; type := type c |}.

(** [SpotifyClient.__init__]; [file] is the content of the cache file, if
    there is one. *)
Definition init (id secret : option string) (file : option (gmap string json))
    : SpotifyClient :=
  {| client_id := id; client_secret := secret;
     spotify_cache := default ∅ file;
     disabled := false;
     type := if opt_truthy id && opt_truthy secret then "api" else "visitor" |}.

Definition boot (id secret : option string) (file : option (gmap string json)) : Proc :=
  {| client := init id secret file; cache_file := file; trace := [] |}.

Section Client.

Variable n : Net.

(** Lines 152-153: the cache is written to the file. *)
Definition write_cache_file (p : Proc) : Proc :=
  {| client := client p;
     cache_file := Some (spotify_cache (client p));
     trace := trace p ++ [WriteCacheFile (spotify_cache (client p))] |}.

(** Lines 106-118 and 152-153: the visitor branch of [get_access_token]. *)
Definition get_visitor_token (p : Proc) : result unit * Proc :=
  let data := visitor_token n (trace p) in
  let p := emit GetVisitorToken p in
  match data !! "accessToken" with
  | None => (Exc (KeyError "accessToken"), p)
  | Some tok =>
    match data !! "accessTokenExpirationTimestampMs" with
    | None => (Exc (KeyError "accessTokenExpirationTimestampMs"), p)
    | Some (JNum ms) =>
        let cache : gmap string json :=
          <["access_token" := tok]> (<["expires_in" := JNum ms]>
          (<["expires_at" := JNum (time n (trace p) + ms)]>
          (<["type" := JStr "visitor"]> ∅))) in
        (Ret tt, write_cache_file
                   (set_client (set_type "visitor" (set_cache cache (client p))) p))
    | Some _ => (Exc TypeError, p)
    end
  end.

(** [get_access_token].  Its one recursive call is made after the
    credentials are dropped, so it lands in the visitor branch. *)
Definition get_access_token (p : Proc) : result unit * Proc :=
  match client_id (client p), client_secret (client p) with
  | Some id, Some secret =>
    if truthy id && truthy secret then
      let data := api_token n (trace p) id secret in
      let p := emit (PostApiToken id secret) p in
      if json_truthy (data !! "error") then
        match data !! "error_description" with
        | None => (Exc (KeyError "error_description"), p)
        | Some _ => get_visitor_token (set_client (drop_credentials (client p)) p)
        end
      else
        let cache := <["tyoe" := JStr "api"]> data in
        let c := set_type "api" (set_cache cache (client p)) in
        match cache !! "expires_in" with
        | None => (Exc (KeyError "expires_in"), set_client c p)
        | Some (JNum ttl) =>
            let cache := <["expires_at" := JNum (time n (trace p) + ttl)]> cache in
            (Ret tt, write_cache_file (set_client (set_cache cache c) p))
        | Some _ => (Exc TypeError, set_client c p)
        end
    else get_visitor_token p
  | _, _ => get_visitor_token p
  end.

(** [self.spotify_cache.get("type") != self.type] *)
Definition type_differs (c : SpotifyClient) : bool :=
  match spotify_cache c !! "type" with
  | Some (JStr t) => negb (String.eqb t (type c))
  | _ => true
  end.

(** [get_valid_access_token] *)
Definition get_valid_access_token (p : Proc) : result json * Proc :=
  match spotify_cache (client p) !! "expires_at" with
  | None => (Exc (KeyError "expires_at"), p)
  | Some (JNum expires_at) =>
      let fetch (p : Proc) :=
        match spotify_cache (client p) !! "access_token" with
        | Some tok => (Ret tok, p)
        | None => (Exc (KeyError "access_token"), p)
        end in
      if (time n (trace p) >=? expires_at)%Z || type_differs (client p) then
        match get_access_token p with
        | (Ret _, p) => fetch p
        | (Exc x, p) => (Exc x, p)
        end
      else fetch p
  | Some _ => (Exc TypeError, p)
  end.

(** [request].  [fuel] is the number of nested calls of [request] that the
    recursion limit of the interpreter admits (about 980 from an empty
    stack): the recursive call of line 60 uses one up, and a call that the
    limit no longer admits raises [RecursionError], which nothing in
    [request] catches. *)
Fixpoint request (fuel : nat) (path : string) (params : list (string * string))
    (p : Proc) : result (option string) * Proc :=
  match fuel with
  | O => (Exc RecursionError, p)
  | S fuel' =>
    if disabled (client p) then (Ret None, p)
    else
      match get_valid_access_token p with
      | (Ret tok, p) =>
          let '(status, body) := api n (trace p) path params tok in
          let p := emit (GetApi path params tok status) p in
          if (status =? 200)%Z then (Ret (Some body), p)
          else if (status =? 401)%Z then
            match get_access_token p with
            | (Ret _, p) => request fuel' path params p
            | (Exc x, p) => (Exc x, p)
            end
          else if (status =? 404)%Z then (Exc GenericError, p)
          else if (status =? 429)%Z then
            (Ret None, set_client (set_disabled true (client p)) p)
          else if (400 <=? status)%Z then (Exc (ClientResponseError status), p)
          else (Ret None, p)
      | (Exc x, p) => (Exc x, p)
      end
  end.

(** The operations of the client that change it, and a run of them. *)
Inductive op :=
| Request (path : string) (params : list (string * string))
| GetAccessToken
| GetValidAccessToken.

Definition exec (fuel : nat) (o : op) (p : Proc) : Proc :=
  match o with
  | Request path params => snd (request fuel path params p)
  | GetAccessToken => snd (get_access_token p)
  | GetValidAccessToken => snd (get_valid_access_token p)
  end.

Definition run (fuel : nat) (ops : list op) (p : Proc) : Proc :=
  fold_left (fun p o => exec fuel o p) ops p.

End Client.

(** Counting in a trace. *)
Definition is_get (ev : event) : bool :=
  match ev with GetApi _ _ _ _ => true | _ => false end.

Definition is_token_fetch (ev : event) : bool :=
  match ev with GetVisitorToken | PostApiToken _ _ => true | _ => false end.

Definition is_429 (ev : event) : bool :=
  match ev with GetApi _ _ _ status => (status =? 429)%Z | _ => false end.

Definition count (f : event -> bool) (l : list event) : nat :=
  List.length (List.filter f l).

(** Some GET of the trace was answered 429. *)
Definition limited (l : list event) : bool := existsb is_429 l.

(** The cache holds a numeric expiry and a token: [get_valid_access_token]
    finds the keys it reads. *)
Definition usable (c : SpotifyClient) : Prop :=
  (exists t, spotify_cache c !! "expires_at" = Some (JNum t))
  /\ is_Some (spotify_cache c !! "access_token").

(** Token endpoints that answer documents of the expected shape: the
    visitor endpoint a token and a numeric expiry; the API endpoint either
    an error with its description, or a token with a numeric lifetime. *)
Definition healthy (n : Net) : Prop :=
  (forall log, exists tok ms,
      visitor_token n log !! "accessToken" = Some tok
      /\ visitor_token n log !! "accessTokenExpirationTimestampMs" = Some (JNum ms))
  /\ (forall log id secret,
        (json_truthy (api_token n log id secret !! "error") = true
         /\ is_Some (api_token n log id secret !! "error_description"))
        \/ (json_truthy (api_token n log id secret !! "error") = false
            /\ (exists ttl, api_token n log id secret !! "expires_in" = Some (JNum ttl))
            /\ is_Some (api_token n log id secret !! "access_token"))).

(** What a token operation leaves alone: the [disabled] flag, the GETs and
    the 429s of the trace; and it never removes a token request. *)
Definition frame (p p' : Proc) : Prop :=
  disabled (client p') = disabled (client p)
  /\ count is_get (trace p') = count is_get (trace p)
  /\ limited (trace p') = limited (trace p)
  /\ (count is_token_fetch (trace p) <= count is_token_fetch (trace p'))%nat.

(** Once a 429 is in the trace the client is disabled. *)
Definition guarded (p : Proc) : Prop :=
  limited (trace p) = true -> disabled (client p) = true.

End Spotify.

(** ** Concrete tracks, listeners and services used in the examples *)

Module Cases.

Import LastFm.

Open Scope Z_scope.

Definition song : LavalinkTrack :=
  {| uri := "https://open.spotify.com/track/1";
     url := "https://open.spotify.com/track/1";
     title := "Song"; single_title := "Song"; author := "Band, Guest";
     album_name := EmptyString; duration := 200000; sourceName := "spotify";
     is_stream := false; requester := 1; ytid := EmptyString; autoplay := false |}.

Definition jingle : LavalinkTrack :=
  {| uri := "https://open.spotify.com/track/2";
     url := "https://open.spotify.com/track/2";
     title := "Jingle"; single_title := "Jingle"; author := "Band";
     album_name := "Ads"; duration := 10000; sourceName := "spotify";
     is_stream := false; requester := 1; ytid := EmptyString; autoplay := false |}.

(** The youtube track of the scenario, for a given uploader name. *)
Definition upload (uploader : string) (album yt : string) : LavalinkTrack :=
  {| uri := "https://www.youtube.com/watch?v=x";
     url := "https://www.youtube.com/watch?v=x";
     title := "Song Title"; single_title := "Song Title"; author := uploader;
     album_name := album; duration := 200000; sourceName := "youtube";
     is_stream := false; requester := 1; ytid := yt; autoplay := false |}.

Definition listening : VoiceState :=
  {| channel := Some 7; self_deaf := false; deaf := false |}.

Definition away : VoiceState :=
  {| channel := None; self_deaf := false; deaf := false |}.

Definition listener (uid : Z) : Member :=
  {| id := uid; bot := false; guild_id := 5; voice := Some listening |}.

Definition linked (key : string) : fminfo :=
  {| scrobble := true; sessionkey := key; username := "someone" |}.

(** A service that accepts everything, with the bot connected. *)
Definition env_ok : Env :=
  {| me_voice := fun _ _ => true;
     last_fm := fun _ _ _ => Ok;
     default_lastfm := linked EmptyString |}.

(** The bot is never connected to voice. *)
Definition env_silent : Env :=
  {| me_voice := fun _ _ => false;
     last_fm := fun _ _ _ => Ok;
     default_lastfm := linked EmptyString |}.

(** The service refuses the session of listener 1 with code 9. *)
Definition env_revoked : Env :=
  {| me_voice := fun _ _ => true;
     last_fm := fun _ u _ => if u =? 1 then LastFmException 9 else Ok;
     default_lastfm := linked EmptyString |}.

Definition db : gmap Z fminfo :=
  <[1 := linked "key1"]> (<[2 := linked "key2"]> (<[3 := linked "key3"]> ∅)).

Definition world_at (t : Z) : World :=
  {| utcnow := t; lastfm_sessions := ∅; users_db := db; calls := [] |}.

Definition room : VoiceChannel :=
  {| channel_id := 7; members := [listener 1; listener 2] |}.

Definition playing (track : LavalinkTrack) (started : Z) (marks : gmap Z mark)
    : LavalinkPlayer :=
  {| guild := 5; start_time := started; current := Some track;
     last_track := Some track; last_channel := Some room;
     lastfm_users := marks |}.

End Cases.

Module Servers.

Import Spotify.

Open Scope Z_scope.

(** The document of the client-credentials endpoint. *)
Definition api_doc (tok : string) (ttl : Z) : gmap string json :=
  <["access_token" := JStr tok]> (<["token_type" := JStr "Bearer"]>
  (<["expires_in" := JNum ttl]> ∅)).

(** The document of the visitor endpoint. *)
Definition visitor_doc (tok : string) (ms : Z) : gmap string json :=
  <["accessToken" := JStr tok]>
  (<["accessTokenExpirationTimestampMs" := JNum ms]> ∅).

(** A cache file left by an earlier visitor refresh, valid until [t]. *)
Definition cached (tok : string) (t : Z) : gmap string json :=
  <["access_token" := JStr tok]> (<["expires_in" := JNum 3600000]>
  (<["expires_at" := JNum t]> (<["type" := JStr "visitor"]> ∅))).

(** The clock stands at [now]; the token endpoints answer [tok]; the API
    answers what [status] says for the number of GETs made before. *)
Definition net (now : Z) (tok : string) (ttl : Z) (status : nat -> Z) : Net :=
  {| time := fun _ => now;
     api := fun log _ _ _ => (status (count is_get log), "{}");
     visitor_token := fun _ => visitor_doc tok ttl;
     api_token := fun _ _ _ => api_doc tok ttl |}.

(** 401 for the first [k] GETs, 200 afterwards. *)
Definition flaky (k : nat) (i : nat) : Z := if (i <? k)%nat then 401 else 200.

Definition always (status : Z) (i : nat) : Z := status.

End Servers.

(** ** The account-linking view of modules/lastfm.py *)

Module Linking.

(** What [get_session_key] gives back: a document, of which the loop reads
    the truth of ["error"] and the ["key"] and ["name"] of ["session"]
    (absent when the lookup would raise [KeyError]), or an exception. *)
Inductive answer :=
| Answer (error : bool) (key name : option string)
| Failure.

Inductive failure :=
| ServiceError
| MissingKey.

(** The attributes of [LastFMView] that [check_session_loop] reads and
    writes; [stopped] records the call of [self.stop()]. *)
Record LastFMView := {
  session_key : string;
  username : string;
  token : string;
  auth_url : option string;
  error : option failure;
  stopped : bool
}.

Definition set_session_key (k : string) (v : LastFMView) : LastFMView :=
  {| session_key := k; username := username v; token := token v;
     auth_url := auth_url v; error := error v; stopped := stopped v |}.

Definition set_username (u : string) (v : LastFMView) : LastFMView :=
  {| session_key := session_key v; username := u; token := token v;
     auth_url := auth_url v; error := error v; stopped := stopped v |}.

(** [self.auth_url = ""; self.token = ""] *)
Definition clear_link (v : LastFMView) : LastFMView :=
  {| session_key := session_key v; username := username v; token := EmptyString;
     auth_url := Some EmptyString; error := error v; stopped := stopped v |}.

Definition stop (v : LastFMView) : LastFMView :=
  {| session_key := session_key v; username := username v; token := token v;
     auth_url := auth_url v; error := error v; stopped := true |}.

(** Lines 67-72: the [except] branch. *)
Definition fail (x : failure) (v : LastFMView) : LastFMView :=
  stop (clear_link
    {| session_key := session_key v; username := username v; token := token v;
       auth_url := auth_url v; error := Some x; stopped := stopped v |}).

Section Loop.

(** [get_session_key polls token]: the answer to the poll number [polls]. *)
Variable get_session_key : nat -> string -> answer.

(** Lines 56-75: the [while count > 0] loop and what follows it.  The
    result carries the number of polls made, each after a sleep of 20 s. *)
Fixpoint check_loop (fuel : nat) (count : Z) (polls : nat) (v : LastFMView)
    : option (LastFMView * nat) :=
  match fuel with
  | O => None
  | S fuel' =>
      if (count >? 0)%Z then
        match get_session_key polls (token v) with
        | Failure => Some (fail ServiceError v, S polls)
        | Answer true _ _ => check_loop fuel' (count - 1) (S polls) v
        | Answer false None _ => Some (fail MissingKey v, S polls)
        | Answer false (Some k) None =>
            Some (fail MissingKey (set_session_key k v), S polls)
        | Answer false (Some k) (Some u) =>
            Some (stop (set_username u (set_session_key k v)), S polls)
        end
      else Some (clear_link v, polls)
  end.

(** [LastFMView.check_session_loop] *)
Definition check_session_loop (fuel : nat) (v : LastFMView)
    : option (LastFMView * nat) :=
  check_loop fuel 15 0 v.

End Loop.

End Linking.

(** ** Predicates on listeners and sessions *)

Module Gate.

Import PyStr LastFm.

(** The listener is skipped by lines 503-510: a bot, without a voice state,
    or deafened. *)
Definition excluded (m : Member) : bool :=
  bot m || match voice m with
           | None => true
           | Some vs => self_deaf vs || deaf vs
           end.

(** The session that line 512-517 resolve for [u] is skipped by line 519. *)
Definition opted_out (e : Env) (w : World) (u : Z) : Prop :=
  scrobble (fst (resolve_session e w u)) = false
  \/ truthy (sessionkey (fst (resolve_session e w u))) = false.

(** Every cached session is the stored one. *)
Definition coherent (e : Env) (w : World) : Prop :=
  forall u f, lastfm_sessions w !! u = Some f -> get_global_data e w u = f.

(** The keyword arguments of a call. *)
Definition kwargs_of (c : api_call) : kwargs :=
  match c with
  | update_nowplaying k | track_scrobble k => k
  end.

(** A record of the log that the loop can have written for a listener of
    [l]: the listener is not excluded, and the call is the one built from an
    enabled session with a key. *)
Definition submitted_for (track : LavalinkTrack) (f : fields) (np : bool)
    (l : list Member) (r : call_record) : Prop :=
  exists v fm,
    In v l /\ excluded v = false /\ fst r = id v
    /\ snd r = make_call track f np fm (id v)
    /\ scrobble fm = true /\ truthy (sessionkey fm) = true.

End Gate.

(** ** Predicates on the token state *)

Module Tokens.

Import Spotify.

(** Between [p] and [p'] either the cache, the cache file and the type of
    the client are the same and no token was requested, or a token was
    requested. *)
Definition token_state_kept (p p' : Proc) : Prop :=
  (spotify_cache (client p') = spotify_cache (client p)
   /\ cache_file p' = cache_file p
   /\ type (client p') = type (client p)
   /\ count is_token_fetch (trace p') = count is_token_fetch (trace p))
  \/ (count is_token_fetch (trace p) < count is_token_fetch (trace p'))%nat.

End Tokens.

(** ** Properties of the rounding *)

Module Float64Facts.

Import Float64.

Open Scope Z_scope.

Lemma up_pos E : 0 < up E.
Proof. unfold up. apply Z.pow_pos_nonneg; lia. Qed.

Lemma down_pos E : 0 < down E.
Proof. unfold down. apply Z.pow_pos_nonneg; lia. Qed.

(** [2 ^ E * 2 ^ k = 2 ^ (E + k)], on the integers. *)
Lemma up_down_shift E k :
  0 <= k -> up (E + k) * down E = 2 ^ k * up E * down (E + k).
Proof.
  intros Hk. unfold up, down.
  rewrite <- !Z.pow_add_r by lia. f_equal. lia.
Qed.

Lemma round_half_even_error n d :
  0 < d ->
  2 * (round_half_even n d * d) <= 2 * n + d
  /\ 2 * n <= 2 * (round_half_even n d * d) + d.
Proof.
  intros Hd. unfold round_half_even.
  pose proof (Z.div_mod n d ltac:(lia)) as E.
  pose proof (Z.mod_pos_bound n d Hd) as B.
  destruct (Z.compare_spec (2 * (n mod d)) d) as [C | C | C].
  - destruct (Z.even (n / d)); nia.
  - nia.
  - nia.
Qed.


Lemma round_half_even_exact n d :
  0 < d -> n mod d = 0 -> round_half_even n d * d = n.
Proof.
  intros Hd Hm. unfold round_half_even. rewrite Hm.
  destruct (Z.compare_spec (2 * 0) d); try lia.
  pose proof (Z.div_mod n d ltac:(lia)). nia.
Qed.

Lemma round_half_even_scale c n d :
  0 < c -> 0 < d -> round_half_even (c * n) (c * d) = round_half_even n d.
Proof.
  intros Hc Hd. unfold round_half_even.
  rewrite Z.div_mul_cancel_l by lia.
  rewrite Zmult_mod_distr_l.
  replace (2 * (c * (n mod d))) with (c * (2 * (n mod d))) by lia.
  rewrite <- Zmult_compare_compat_l by lia. reflexivity.
Qed.

Lemma ilog2_spec n d : 0 < n -> 0 < d -> exponent_of n d (ilog2 n d).
Proof.
  intros Hn Hd. unfold exponent_of, ilog2.
  pose proof (Z.log2_spec n Hn) as [An Bn].
  pose proof (Z.log2_spec d Hd) as [Ad Bd].
  pose proof (Z.log2_nonneg n) as Pn.
  pose proof (Z.log2_nonneg d) as Pd.
  set (a := Z.log2 n) in *. set (b := Z.log2 d) in *.
  rewrite !Z.pow_succ_r in * by lia.
  destruct (Z.leb_spec (d * up (a - b)) (n * down (a - b))) as [T | T].
  - split; [exact T|].
    (* n < 2^(a+1), 2^b <= d, and 2^a * down = 2^b * up *)
    assert (K : 2 ^ a * down (a - b) = 2 ^ b * up (a - b)).
    { unfold up, down. rewrite <- !Z.pow_add_r by lia. f_equal. lia. }
    pose proof (up_pos (a - b)). pose proof (down_pos (a - b)). nia.
  - assert (K : 2 ^ a * down (a - b - 1) = 2 ^ 1 * (2 ^ b * up (a - b - 1))).
    { unfold up, down. rewrite <- !Z.pow_add_r by lia. f_equal. lia. }
    assert (S : up (a - b) * down (a - b - 1)
                = 2 ^ 1 * (up (a - b - 1) * down (a - b))).
    { unfold up, down. rewrite <- !Z.pow_add_r by lia. f_equal. lia. }
    change (2 ^ 1) with 2 in K, S.
    pose proof (up_pos (a - b)). pose proof (down_pos (a - b)).
    pose proof (up_pos (a - b - 1)). pose proof (down_pos (a - b - 1)).
    split.
    + nia.
    + (* from n * down l < d * up l, multiplied by down (l - 1) *)
      assert (n * down (a - b) * down (a - b - 1)
              < d * up (a - b) * down (a - b - 1)) by nia.
      nia.
Qed.

Lemma exponent_unique n d E E' :
  0 < n -> 0 < d -> exponent_of n d E -> exponent_of n d E' -> E = E'.
Proof.
  assert (W : forall E E', 0 < n -> 0 < d ->
                exponent_of n d E -> exponent_of n d E' -> E < E' -> False).
  { clear E E'. intros E E' Hn Hd [L U] [L' U'] Hlt.
    assert (K : 2 ^ 1 * (up E * down E') <= up E' * down E).
    { unfold up, down. rewrite <- !Z.pow_add_r by lia.
      apply Z.pow_le_mono_r; lia. }
    change (2 ^ 1) with 2 in K.
    pose proof (up_pos E). pose proof (down_pos E).
    pose proof (up_pos E'). pose proof (down_pos E').
    assert (n * down E * down E' < 2 * (d * up E) * down E') by nia.
    assert (d * up E' * down E <= n * down E' * down E) by nia.
    nia. }
  intros Hn Hd H H'.
  destruct (Z.lt_trichotomy E E') as [Hlt | [Heq | Hgt]]; [|exact Heq|].
  - exfalso. eapply (W E E'); eassumption.
  - exfalso. eapply (W E' E); eassumption.
Qed.

Lemma ilog2_scale c n d :
  0 < c -> 0 < n -> 0 < d -> ilog2 (c * n) (c * d) = ilog2 n d.
Proof.
  intros Hc Hn Hd.
  apply (exponent_unique (c * n) (c * d)); try nia.
  - apply ilog2_spec; nia.
  - destruct (ilog2_spec n d Hn Hd) as [L U]. unfold exponent_of. nia.
Qed.

Lemma round_pos_scale c n d :
  0 < c -> 0 < n -> 0 < d -> round_pos (c * n) (c * d) = round_pos n d.
Proof.
  intros Hc Hn Hd. unfold round_pos. rewrite ilog2_scale by assumption.
  set (e := ilog2 n d - 52).
  replace (c * n * down e) with (c * (n * down e)) by lia.
  replace (c * d * up e) with (c * (d * up e)) by lia.
  rewrite round_half_even_scale; [reflexivity | exact Hc |].
  pose proof (up_pos e). nia.
Qed.

(** Rounding does not depend on how the rational is written. *)
Lemma fl_proper x y : x == y -> fl x = fl y.
Proof.
  destruct x as [nx dx], y as [ny dy]. unfold Qeq, fl. simpl. intros H.
  destruct nx as [|nx|nx], ny as [|ny|ny]; try lia; try reflexivity.
  - rewrite <- (round_pos_scale (Zpos dy) (Zpos nx) (Zpos dx)) by lia.
    rewrite <- (round_pos_scale (Zpos dx) (Zpos ny) (Zpos dy)) by lia.
    f_equal; lia.
  - f_equal.
    rewrite <- (round_pos_scale (Zpos dy) (Zpos nx) (Zpos dx)) by lia.
    rewrite <- (round_pos_scale (Zpos dx) (Zpos ny) (Zpos dy)) by lia.
    f_equal; lia.
Qed.

(** The significand of [round_pos]: [q] is [n / d] scaled to 53 bits and
    rounded, so it is off by at most one part in [2 ^ 53]. *)
Lemma round_pos_error n d :
  0 < n -> 0 < d ->
  Qnum (round_pos n d) * d * 2 ^ 53 <= n * (2 ^ 53 + 1) * QDen (round_pos n d)
  /\ n * (2 ^ 53 - 1) * QDen (round_pos n d) <= Qnum (round_pos n d) * d * 2 ^ 53.
Proof.
  intros Hn Hd. unfold round_pos.
  destruct (ilog2_spec n d Hn Hd) as [L U].
  set (E := ilog2 n d) in *. set (e := E - 52).
  cbn [Qnum Qden].
  pose proof (up_pos E). pose proof (down_pos E).
  pose proof (up_pos e) as Pu. pose proof (down_pos e) as Pd.
  rewrite Z2Pos.id by exact Pd.
  pose proof (up_down_shift e 52 ltac:(lia)) as K.
  replace (e + 52) with E in K by (unfold e; lia).
  assert (D : 0 < d * up e) by nia.
  destruct (round_half_even_error (n * down e) (d * up e) D) as [R1 R2].
  set (q := round_half_even (n * down e) (d * up e)) in *.
  (* 2^52 * (d * up e) <= n * down e *)
  assert (M : 2 ^ 52 * (d * up e) <= n * down e).
  { assert (d * up E * down e <= n * down E * down e) by nia.
    assert (2 ^ 52 * (d * up e) * down E <= n * down e * down E) by nia.
    nia. }
  change (2 ^ 53) with (2 * 2 ^ 52). split; nia.
Qed.


Lemma fl_upper x : (0 < x -> fl x <= x * (1 + eps))%Q.
Proof.
  destruct x as [[|n|n] d]; unfold Qlt at 1; cbn [Qnum Qden]; intros H; try lia.
  unfold fl. cbn [Qnum Qden].
  destruct (round_pos_error (Zpos n) (Zpos d) ltac:(lia) ltac:(lia)) as [U _].
  unfold Qle, Qmult, Qplus, eps. cbn [Qnum Qden].
  change (2 ^ 53) with 9007199254740992 in U.
  rewrite !Pos2Z.inj_mul. lia.
Qed.

Lemma fl_lower x : (0 < x -> x * (1 - eps) <= fl x)%Q.
Proof.
  destruct x as [[|n|n] d]; unfold Qlt at 1; cbn [Qnum Qden]; intros H; try lia.
  unfold fl. cbn [Qnum Qden].
  destruct (round_pos_error (Zpos n) (Zpos d) ltac:(lia) ltac:(lia)) as [_ L].
  unfold Qle, Qmult, Qminus, Qplus, Qopp, eps. cbn [Qnum Qden].
  change (2 ^ 53) with 9007199254740992 in L.
  rewrite !Pos2Z.inj_mul. lia.
Qed.


Lemma round_pos_exact n k :
  0 < n < 2 ^ 53 -> 0 <= k ->
  (round_pos n (2 ^ k) == n # Z.to_pos (2 ^ k))%Q.
Proof.
  intros [Hn Hb] Hk.
  assert (Hd : 0 < 2 ^ k) by (apply Z.pow_pos_nonneg; lia).
  unfold round_pos.
  destruct (ilog2_spec n (2 ^ k) Hn Hd) as [L _].
  set (E := ilog2 n (2 ^ k)) in *. set (e := E - 52).
  (* the exponent is at most -k *)
  assert (He : e + k <= 0).
  { destruct (Z.le_gt_cases (e + k) 0) as [|Hgt]; [assumption|exfalso].
    pose proof (down_pos E).
    assert (2 ^ 53 * down E <= 2 ^ k * up E); [|nia].
    unfold up, down. rewrite <- !Z.pow_add_r by lia.
    apply Z.pow_le_mono_r; lia. }
  assert (Hup : up e = 1).
  { unfold up. replace (Z.max 0 e) with 0 by lia. reflexivity. }
  assert (Hdown : down e = 2 ^ k * 2 ^ (- e - k)).
  { unfold down. rewrite <- Z.pow_add_r by lia. f_equal. lia. }
  rewrite Hup, !Z.mul_1_r.
  assert (Hx : round_half_even (n * down e) (2 ^ k) * 2 ^ k = n * down e).
  { apply round_half_even_exact; [exact Hd|].
    rewrite Hdown. replace (n * (2 ^ k * 2 ^ (- e - k)))
      with (n * 2 ^ (- e - k) * 2 ^ k) by lia.
    apply Z.mod_mul. lia. }
  unfold Qeq. cbn [Qnum Qden].
  rewrite !Z2Pos.id by (try apply down_pos; lia). exact Hx.
Qed.

(** A number with a significand of at most 53 bits is not changed. *)
Lemma fl_exact m k :
  - 2 ^ 53 < m < 2 ^ 53 -> 0 <= k ->
  (fl (m # Z.to_pos (2 ^ k)) == m # Z.to_pos (2 ^ k))%Q.
Proof.
  intros Hm Hk.
  assert (Hd : 0 < 2 ^ k) by (apply Z.pow_pos_nonneg; lia).
  unfold fl. cbn [Qnum Qden]. rewrite Z2Pos.id by exact Hd.
  destruct m as [|n|n].
  - reflexivity.
  - apply round_pos_exact; lia.
  - rewrite round_pos_exact by lia. reflexivity.
Qed.

Lemma fl_exact_Z m : - 2 ^ 53 < m < 2 ^ 53 -> (fl (inject_Z m) == inject_Z m)%Q.
Proof. intros Hm. apply (fl_exact m 0 Hm). lia. Qed.

(** [int(x)] of a non-negative [x] between [k] and [k + 1]. *)
Lemma trunc_between x k :
  (inject_Z k <= x)%Q -> (x < inject_Z (k + 1))%Q -> 0 <= k -> trunc x = k.
Proof.
  destruct x as [n d]. unfold Qle, Qlt, trunc. cbn [Qnum Qden inject_Z].
  intros Hl Hu Hk.
  rewrite Z.quot_div_nonneg by nia.
  symmetry. apply (Z.div_unique n (Zpos d) k (n - k * Zpos d)); lia.
Qed.

End Float64Facts.

(** ** Properties of the Last.fm listeners *)

Module LastFmFacts.

Import PyStr LastFm Cases.

Open Scope Z_scope.

Section Guards.

Variable e : Env.






(** The poll loop is left only through its [break]: with the bot connected. *)
Lemma wait_voice_exit fuel g counter now t :
  0 < counter -> wait_voice e fuel g counter now = Some t -> me_voice e g t = true.
Proof.
  intros Hc; revert now; induction fuel as [|fuel IH]; intros now; simpl.
  - discriminate.
  - destruct (counter >? 0) eqn:E; [|lia].
    destruct (me_voice e g now) eqn:V; simpl.
    + intros [= <-]; exact V.
    + apply IH.
Qed.

Lemma wait_voice_stuck fuel g counter now :
  0 < counter -> (forall t, me_voice e g t = false) ->
  wait_voice e fuel g counter now = None.
Proof.
  intros Hc Hv; revert now; induction fuel as [|fuel IH]; intros now; simpl.
  - reflexivity.
  - destruct (counter >? 0) eqn:E; [|lia].
    rewrite Hv; simpl; apply IH.
Qed.

Lemma startscrooble_rejected fuel w player track reason update_np users :
  rejected w player track reason update_np = true ->
  startscrooble e fuel w player (Some track) reason update_np users
  = Returned (w, player).
Proof. intros H; simpl; rewrite H; reflexivity. Qed.


End Guards.

(** *** Track-end guards *)





(** The bound on the duration is needed: from elapsed times of 2^33 s on,
    neighbouring floats are more than a microsecond apart.  A track of
    12000000000001 ms that ends one microsecond short of 75% passes the
    guards. *)
Lemma threshold_rounds_beyond_bound :
  utcnow (world_at 9000000000000749) - 0 < 750 * 12000000000001
  /\ rejected (world_at 9000000000000749)
       (playing
          {| uri := "u"; url := "u"; title := "Song"; single_title := "Song";
             author := "Band"; album_name := "Album";
             duration := 12000000000001; sourceName := "spotify";
             is_stream := false; requester := 1; ytid := EmptyString;
             autoplay := false |} 0 ∅)
       {| uri := "u"; url := "u"; title := "Song"; single_title := "Song";
          author := "Band"; album_name := "Album";
          duration := 12000000000001; sourceName := "spotify";
          is_stream := false; requester := 1; ytid := EmptyString;
          autoplay := false |} (Some "FINISHED") false
     = false.
Proof. split; [simpl; lia | vm_compute; reflexivity]. Qed.

(** C5, as the code has it: a track shorter than 20000 ms is skipped by
    every track-end event, whatever the reason, and nothing is submitted. *)
Theorem short_track_end_skipped e fuel w player track reason users :
  duration track < 20000 ->
  startscrooble e fuel w player (Some track) reason false users
  = Returned (w, player).
Proof.
  intros Hd. apply startscrooble_rejected. unfold rejected.
  destruct (is_stream track || in_list (sourceName track) ["local"; "http"]);
    [reflexivity|]. simpl.
  destruct (is_finished reason); simpl; [|reflexivity].
  destruct (duration track <? 20000) eqn:E; [reflexivity | lia].
Qed.

(** An instance: the 10 s track, played to its end. *)
Lemma short_track_end_skipped_witness :
  startscrooble env_ok 1 (world_at 10000000) (playing jingle 0 ∅) (Some jingle)
    (Some "FINISHED") false None
  = Returned (world_at 10000000, playing jingle 0 ∅).
Proof.
  apply (short_track_end_skipped env_ok 1 (world_at 10000000) (playing jingle 0 ∅)
           jingle (Some "FINISHED") None).
  simpl; lia.
Defined.

(** C5 fails as stated: the now-playing event of a 10 s track is submitted
    for both listeners of the channel. *)
Lemma short_now_playing_submitted :
  duration jingle < 20000
  /\ calls_made (update_np env_ok 1 (world_at 0) (playing jingle 0 ∅))
     = [ (1, update_nowplaying
               {| kw_artist := "Band"; kw_track := "Jingle"; kw_album := "Ads";
                  kw_duration := 10; kw_session_key := "key1";
                  kw_chosen_by_user := None |});
         (2, update_nowplaying
               {| kw_artist := "Band"; kw_track := "Jingle"; kw_album := "Ads";
                  kw_duration := 10; kw_session_key := "key2";
                  kw_chosen_by_user := None |}) ].
Proof. split; [simpl; lia | vm_compute; reflexivity]. Qed.

(** *** The voice poll loop *)

(** C3 fails on the code: with the bot never connected, the poll loop of
    lines 460-466 is still running after any number of iterations, for the
    counter is never decremented. *)
Theorem voice_poll_unbounded fuel :
  startscrooble env_silent fuel (world_at 180000000) (playing song 0 ∅)
    (Some song) (Some "FINISHED") false None
  = Polling.
Proof.
  unfold startscrooble.
  replace (rejected _ _ _ _ _) with false by (vm_compute; reflexivity).
  rewrite wait_voice_stuck; [reflexivity | lia | reflexivity].
Qed.

(** *** Artist and track name *)

(** C9, as the code has it: the suffix is matched in lower case.  The
    youtube track with uploader "Artist - topic", title "Song Title", an
    album name and a youtube id, 200000 ms long and finished after 180000 ms,
    passes the guards and yields artist "Artist", track "Song Title" and
    200 seconds. *)
Theorem topic_upload_fields album yt :
  truthy album = true -> truthy yt = true ->
  rejected (world_at 180000000) (playing (upload "Artist - topic" album yt) 0 ∅)
    (upload "Artist - topic" album yt) (Some "FINISHED") false = false
  /\ track_fields (upload "Artist - topic" album yt)
     = Some {| artist := "Artist"; name := "Song Title";
               album := album; duration_s := 200 |}.
Proof.
  intros Ha Hy. split; [reflexivity|].
  unfold track_fields, upload; cbn [album_name ytid sourceName autoplay author
    title single_title duration in_list existsb String.eqb Ascii.eqb Bool.eqb orb].
  rewrite Ha, Hy. reflexivity.
Qed.

(** An instance: the album name is the title. *)
Lemma topic_upload_fields_witness :
  track_fields (upload "Artist - topic" "Song Title" "x")
  = Some {| artist := "Artist"; name := "Song Title";
            album := "Song Title"; duration_s := 200 |}.
Proof.
  apply (topic_upload_fields "Song Title" "x"); reflexivity.
Defined.

(** C9 fails as stated: the uploader "Artist - Topic" does not end with
    " - topic", so the uploader name is the artist. *)
Lemma topic_suffix_case_sensitive :
  track_fields (upload "Artist - Topic" "Song Title" "x")
  = Some {| artist := "Artist - Topic"; name := "Song Title";
            album := "Song Title"; duration_s := 200 |}
  /\ ~ (exists f, track_fields (upload "Artist - Topic" "Song Title" "x") = Some f
                  /\ artist f = "Artist").
Proof.
  split; [reflexivity|].
  intros (f & Hf & Ha). vm_compute in Hf. injection Hf as <-. discriminate Ha.
Qed.

(** *** Voice-state updates *)

Lemma startscrooble_no_reason e fuel w player track users :
  startscrooble e fuel w player track None false users = Returned (w, player).
Proof.
  destruct track as [track|]; [|reflexivity].
  apply startscrooble_rejected. unfold rejected.
  destruct (is_stream track || in_list (sourceName track) ["local"; "http"]);
    reflexivity.
Qed.

Lemma vc_target_lookup players w member before after player :
  vc_target players w member before after = Some player ->
  players !! guild_id member = Some player.
Proof.
  unfold vc_target.
  destruct (bot member || _ || _); [discriminate|].
  destruct (players !! guild_id member) as [q|]; [|discriminate].
  destruct (negb _); [discriminate|].
  destruct (current q), (last_channel q); try discriminate.
  destruct (negb _); [discriminate|].
  destruct (marked _ _ _ _); [discriminate|].
  intros [= <-]; reflexivity.
Qed.

(** C10: [connect_vc_update] calls [startscrooble] without a reason and
    without [update_np]; such a call returns at the guards, whatever the
    track and the listeners; so a voice-state update leaves the world, the
    log of provider calls and every player with its marks as they were. *)
Theorem voice_update_never_submits e fuel players w member before after :
  (forall player track users,
     startscrooble e fuel w player track None false users = Returned (w, player))
  /\ connect_vc_update e fuel players w member before after = Returned (w, players).
Proof.
  split; [intros; apply startscrooble_no_reason|].
  unfold connect_vc_update.
  destruct (vc_target players w member before after) as [player|] eqn:T;
    [|reflexivity].
  rewrite startscrooble_no_reason.
  apply vc_target_lookup in T. rewrite (insert_id _ _ _ T). reflexivity.
Qed.

(** *** Scrobble marks *)







(** *** Revoked sessions *)

Lemma untouched_refl u st : untouched u st st.
Proof. repeat split. Qed.

Lemma untouched_trans u st1 st2 st3 :
  untouched u st1 st2 -> untouched u st2 st3 -> untouched u st1 st3.
Proof.
  intros (A1 & A2 & A3 & A4) (B1 & B2 & B3 & B4).
  repeat split; congruence.
Qed.

Lemma resolve_session_frame e w v fm w1 :
  resolve_session e w v = (fm, w1) ->
  users_db w1 = users_db w /\ calls w1 = calls w /\ utcnow w1 = utcnow w
  /\ forall u, v <> u -> lastfm_sessions w1 !! u = lastfm_sessions w !! u.
Proof.
  unfold resolve_session.
  destruct (lastfm_sessions w !! v) as [f0|]; intros [= <- <-].
  - repeat split.
  - repeat split. intros u Hne. simpl. by rewrite lookup_insert_ne.
Qed.

Lemma filter_call_other u v c l :
  v <> u ->
  List.filter (call_of u) (l ++ [(v, c)]) = List.filter (call_of u) l.
Proof.
  intros Hne. rewrite List.filter_app. simpl. unfold call_of at 2. simpl.
  destruct (v =? u) eqn:E; [lia|]. apply app_nil_r.
Qed.

Lemma filter_call_own u c l :
  List.filter (call_of u) (l ++ [(u, c)])
  = (List.filter (call_of u) l ++ [(u, c)])%list.
Proof.
  rewrite List.filter_app. simpl. unfold call_of at 2. simpl.
  by rewrite Z.eqb_refl.
Qed.

Lemma scrobble_user_other e track f np st v u :
  id v <> u -> untouched u st (scrobble_user e track f np st v).
Proof.
  intros Hne. unfold scrobble_user.
  destruct (bot v); [apply untouched_refl|].
  destruct (voice v) as [vs|]; [|apply untouched_refl].
  destruct (self_deaf vs || deaf vs); [apply untouched_refl|].
  destruct (resolve_session e (fst st) (id v)) as [fm w1] eqn:R.
  apply resolve_session_frame in R as (Hdb & Hcalls & _ & Hses).
  specialize (Hses u Hne).
  destruct (negb (scrobble fm) || negb (truthy (sessionkey fm))).
  { repeat split; simpl; congruence. }
  destruct (last_fm e _ _ _) as [|code|].
  - repeat split; simpl; try congruence.
    + by rewrite lookup_insert_ne.
    + rewrite filter_call_other by done. congruence.
  - destruct (code =? 9).
    + unfold invalidate, get_global_data. repeat split; simpl.
      * rewrite lookup_insert_ne by done. congruence.
      * rewrite lookup_delete_ne by done. congruence.
      * by rewrite lookup_delete_ne.
      * rewrite filter_call_other by done. congruence.
    + repeat split; simpl; try congruence.
      rewrite filter_call_other by done. congruence.
  - repeat split; simpl; try congruence.
    rewrite filter_call_other by done. congruence.
Qed.

Lemma scrobble_users_other e track f np u l : forall st,
  Forall (fun v => id v <> u) l ->
  untouched u st (scrobble_users e track f np st l).
Proof.
  induction l as [|v l IH]; intros st Hl; simpl.
  - apply untouched_refl.
  - inversion Hl as [|? ? Hv Hrest]; subst.
    eapply untouched_trans; [|apply IH; exact Hrest].
    apply scrobble_user_other; exact Hv.
Qed.

Lemma scrobble_users_app e track f np l1 l2 st :
  scrobble_users e track f np st (l1 ++ l2)
  = scrobble_users e track f np (scrobble_users e track f np st l1) l2.
Proof. revert st; induction l1 as [|v l1 IH]; intros st; simpl; [reflexivity | apply IH]. Qed.

(** C6: in a batch [l1 ++ user :: l2], where [user] is submitted (no bot,
    not deafened, scrobbling enabled, a session key [fm] resolved) and the
    service answers code 9, and [user] does not occur again in [l2]: when the
    batch is over the stored session key of [user] is empty, the cached
    session and the mark of [user] are gone, the refused call is the last
    one made for [user], and the listeners of [l2] have been processed from
    the state right after the invalidation. *)
Theorem revoked_session_cleared e track f np st l1 user l2 vs fm w1 :
  bot user = false ->
  voice user = Some vs ->
  self_deaf vs || deaf vs = false ->
  resolve_session e (fst (scrobble_users e track f np st l1)) (id user) = (fm, w1) ->
  scrobble fm = true ->
  truthy (sessionkey fm) = true ->
  last_fm e (calls w1) (id user) (make_call track f np fm (id user))
  = LastFmException 9 ->
  Forall (fun v => id v <> id user) l2 ->
  sessionkey <$> users_db (fst (scrobble_users e track f np st (l1 ++ user :: l2)))
                 !! id user = Some EmptyString
  /\ lastfm_sessions (fst (scrobble_users e track f np st (l1 ++ user :: l2)))
       !! id user = None
  /\ lastfm_users (snd (scrobble_users e track f np st (l1 ++ user :: l2)))
       !! id user = None
  /\ List.filter (call_of (id user))
       (calls (fst (scrobble_users e track f np st (l1 ++ user :: l2))))
     = (List.filter (call_of (id user)) (calls w1)
        ++ [(id user, make_call track f np fm (id user))])%list
  /\ scrobble_users e track f np st (l1 ++ user :: l2)
     = scrobble_users e track f np
         (invalidate e (id user)
            (log_call (id user, make_call track f np fm (id user)) w1,
             snd (scrobble_users e track f np st l1)))
         l2.
Proof.
  intros Hbot Hvoice Hdeaf Hres Hscr Hkey H9 Hl2.
  rewrite scrobble_users_app. simpl.
  set (st1 := scrobble_users e track f np st l1) in *.
  assert (Hstep : scrobble_user e track f np st1 user
                  = invalidate e (id user)
                      (log_call (id user, make_call track f np fm (id user)) w1,
                       snd st1)).
  { unfold scrobble_user. rewrite Hbot, Hvoice, Hdeaf, Hres, Hscr, Hkey. simpl.
    rewrite H9. reflexivity. }
  rewrite Hstep.
  set (st2 := invalidate e (id user) _).
  destruct (scrobble_users_other e track f np (id user) l2 st2 Hl2)
    as (Hdb & Hses & Hmark & Hcalls).
  rewrite Hdb, Hses, Hmark, Hcalls. subst st2. unfold invalidate. simpl.
  rewrite lookup_insert_eq, !lookup_delete_eq, filter_call_own.
  repeat split.
Qed.

(** An instance: listener 1 is refused between listeners 2 and 3. *)
Lemma revoked_session_cleared_witness :
  lastfm_sessions
    (fst (scrobble_users env_revoked song
            {| artist := "Band"; name := "Song"; album := "Song"; duration_s := 200 |}
            false (world_at 180000000, playing song 0 ∅)
            ([listener 2] ++ listener 1 :: [listener 3])))
    !! 1 = None.
Proof.
  pose proof (revoked_session_cleared env_revoked song
                {| artist := "Band"; name := "Song"; album := "Song"; duration_s := 200 |}
                false (world_at 180000000, playing song 0 ∅)
                [listener 2] (listener 1) [listener 3] listening (linked "key1")
                (snd (resolve_session env_revoked
                        (fst (scrobble_users env_revoked song
                                {| artist := "Band"; name := "Song"; album := "Song";
                                   duration_s := 200 |}
                                false (world_at 180000000, playing song 0 ∅)
                                [listener 2])) 1))) as H.
  apply H.
  - reflexivity.
  - reflexivity.
  - reflexivity.
  - vm_compute; reflexivity.
  - reflexivity.
  - reflexivity.
  - vm_compute; reflexivity.
  - repeat constructor; simpl; lia.
Defined.

End LastFmFacts.

(** ** Properties of the Spotify client *)

Module SpotifyFacts.

Import PyStr Spotify Servers.

Section Frames.

Variable n : Net.

Lemma count_emit f ev l :
  count f (l ++ [ev]) = (count f l + (if f ev then 1 else 0))%nat.
Proof.
  unfold count. rewrite List.filter_app, List.length_app. simpl.
  destruct (f ev); reflexivity.
Qed.

Lemma limited_emit ev l : limited (l ++ [ev]) = limited l || is_429 ev.
Proof. unfold limited. rewrite existsb_app. simpl. by rewrite orb_false_r. Qed.

Lemma frame_refl p : frame p p.
Proof. repeat split; lia. Qed.

Lemma frame_trans p1 p2 p3 : frame p1 p2 -> frame p2 p3 -> frame p1 p3.
Proof.
  intros (A1 & A2 & A3 & A4) (B1 & B2 & B3 & B4).
  repeat split; try congruence. lia.
Qed.

Lemma frame_emit ev p :
  is_get ev = false -> frame p (emit ev p).
Proof.
  intros H. unfold frame, emit; simpl.
  rewrite !count_emit, limited_emit, H.
  assert (is_429 ev = false) as -> by (destruct ev; try reflexivity; discriminate).
  rewrite orb_false_r. repeat split; lia.
Qed.

Lemma frame_write p c :
  disabled c = disabled (client p) ->
  frame p (write_cache_file (set_client c p)).
Proof.
  intros H. unfold frame, write_cache_file; simpl.
  rewrite !count_emit, limited_emit; simpl.
  rewrite orb_false_r. repeat split; [exact H | lia..].
Qed.

Lemma get_visitor_token_frame p :
  frame p (snd (get_visitor_token n p)).
Proof.
  unfold get_visitor_token.
  assert (F := frame_emit GetVisitorToken p eq_refl).
  destruct (visitor_token n (trace p) !! "accessToken") as [tok|]; [|exact F].
  destruct (visitor_token n (trace p) !! "accessTokenExpirationTimestampMs")
    as [[s|ms|]|]; try exact F.
  eapply frame_trans; [exact F|]. apply frame_write. reflexivity.
Qed.

Lemma get_access_token_frame p :
  frame p (snd (get_access_token n p)).
Proof.
  unfold get_access_token.
  destruct (client_id (client p)) as [id|]; [|apply get_visitor_token_frame].
  destruct (client_secret (client p)) as [secret|]; [|apply get_visitor_token_frame].
  destruct (truthy id && truthy secret); [|apply get_visitor_token_frame].
  assert (F := frame_emit (PostApiToken id secret) p eq_refl).
  destruct (json_truthy _).
  - destruct (_ !! "error_description"); [|exact F].
    eapply frame_trans; [exact F|].
    eapply frame_trans; [|apply get_visitor_token_frame].
    repeat split; simpl; lia.
  - destruct (_ !! "expires_in") as [[s|ttl|]|].
    + eapply frame_trans; [exact F|]. repeat split; simpl; lia.
    + eapply frame_trans; [exact F|]. apply frame_write. reflexivity.
    + eapply frame_trans; [exact F|]. repeat split; simpl; lia.
    + eapply frame_trans; [exact F|]. repeat split; simpl; lia.
Qed.

Lemma get_valid_access_token_frame p :
  frame p (snd (get_valid_access_token n p)).
Proof.
  unfold get_valid_access_token.
  destruct (spotify_cache (client p) !! "expires_at") as [[s|t|]|];
    try apply frame_refl.
  destruct (_ || _).
  - pose proof (get_access_token_frame p) as F.
    destruct (get_access_token n p) as [[[]|x] p1]; simpl in F; try exact F.
    destruct (_ !! "access_token"); exact F.
  - destruct (_ !! "access_token"); apply frame_refl.
Qed.

Lemma frame_guarded p p' : frame p p' -> guarded p -> guarded p'.
Proof. intros (D & _ & L & _) G H. rewrite D. apply G. by rewrite <- L. Qed.

Lemma guarded_emit_get path params tok status p :
  (status =? 429)%Z = false -> guarded p ->
  guarded (emit (GetApi path params tok status) p).
Proof.
  intros Hs G. unfold guarded, emit; simpl.
  rewrite limited_emit; simpl. rewrite Hs, orb_false_r. exact G.
Qed.

Lemma request_disabled fuel path params p :
  disabled (client p) = true ->
  request n (S fuel) path params p = (Ret None, p).
Proof. intros H; simpl; rewrite H; reflexivity. Qed.

Lemma request_guarded fuel : forall path params p,
  guarded p -> guarded (snd (request n fuel path params p)).
Proof.
  induction fuel as [|fuel IH]; intros path params p G; simpl; [exact G|].
  destruct (disabled (client p)); [exact G|].
  pose proof (frame_guarded _ _ (get_valid_access_token_frame p) G) as G1.
  destruct (get_valid_access_token n p) as [[tok|x] p1]; simpl in G1;
    try exact G1.
  destruct (api n (trace p1) path params tok) as [status body].
  destruct (status =? 200)%Z eqn:E200.
  { apply guarded_emit_get; [lia | exact G1]. }
  destruct (status =? 401)%Z eqn:E401.
  { assert (G2 : guarded (emit (GetApi path params tok status) p1))
      by (apply guarded_emit_get; [lia | exact G1]).
    pose proof (frame_guarded _ _ (get_access_token_frame _) G2) as G3.
    destruct (get_access_token n _) as [[[]|x] p3]; simpl in G3; try exact G3.
    apply IH; exact G3. }
  destruct (status =? 404)%Z eqn:E404.
  { apply guarded_emit_get; [lia | exact G1]. }
  destruct (status =? 429)%Z eqn:E429.
  { intros _. reflexivity. }
  destruct (400 <=? status)%Z; apply guarded_emit_get; assumption.
Qed.

Lemma exec_guarded fuel o p : guarded p -> guarded (exec n fuel o p).
Proof.
  destruct o; simpl.
  - apply request_guarded.
  - apply frame_guarded, get_access_token_frame.
  - apply frame_guarded, get_valid_access_token_frame.
Qed.

Lemma run_guarded fuel ops : forall p, guarded p -> guarded (run n fuel ops p).
Proof.
  induction ops as [|o ops IH]; intros p G; simpl; [exact G|].
  apply IH, exec_guarded, G.
Qed.

Lemma exec_disabled fuel o p :
  disabled (client p) = true -> disabled (client (exec n fuel o p)) = true.
Proof.
  intros D. destruct o; simpl.
  - destruct fuel; [exact D|]. by rewrite request_disabled.
  - destruct (get_access_token_frame p) as (-> & _); exact D.
  - destruct (get_valid_access_token_frame p) as (-> & _); exact D.
Qed.

Lemma run_disabled fuel ops : forall p,
  disabled (client p) = true -> disabled (client (run n fuel ops p)) = true.
Proof.
  induction ops as [|o ops IH]; intros p D; simpl; [exact D|].
  apply IH, exec_disabled, D.
Qed.

(** Without a ["type"] in the cache, [get_valid_access_token] refreshes
    whatever the expiry. *)
Lemma untyped_cache_refreshes p t :
  spotify_cache (client p) !! "expires_at" = Some (JNum t) ->
  spotify_cache (client p) !! "type" = None ->
  trace (snd (get_valid_access_token n p)) = trace (snd (get_access_token n p)).
Proof.
  intros He Ht. unfold get_valid_access_token, type_differs.
  rewrite He, Ht, orb_true_r.
  destruct (get_access_token n p) as [[[]|x] p1]; try reflexivity.
  destruct (_ !! "access_token"); reflexivity.
Qed.

End Frames.

(** *** Rate limiting *)

(** C7: take a process in which every 429 so far has disabled the client
    (a fresh process has an empty trace) and run any operations of the
    client on it.  If a GET has been answered 429 by then, the client is
    disabled; every later [request] returns [None] at once and leaves the
    process, trace included, as it is; and no later operation enables the
    client again. *)
Theorem rate_limit_sticky n fuel ops p :
  (limited (trace p) = true -> disabled (client p) = true) ->
  limited (trace (run n fuel ops p)) = true ->
  disabled (client (run n fuel ops p)) = true
  /\ (forall fuel' path params,
        request n (S fuel') path params (run n fuel ops p)
        = (Ret None, run n fuel ops p))
  /\ (forall fuel' more,
        disabled (client (run n fuel' more (run n fuel ops p))) = true).
Proof.
  intros G L.
  assert (D : disabled (client (run n fuel ops p)) = true)
    by (apply (run_guarded n fuel ops p G); exact L).
  split; [exact D|]. split.
  - intros. by apply request_disabled.
  - intros. by apply run_disabled.
Qed.

(** An instance: the first GET is answered 429, the next request is not sent. *)
Lemma rate_limit_sticky_witness :
  request (net 1000 "new" 3600000 (always 429)) 1 "albums/2" []
    (run (net 1000 "new" 3600000 (always 429)) 3 [Request "tracks/1" []]
       (boot None None (Some (cached "old" 5000))))
  = (Ret None,
     run (net 1000 "new" 3600000 (always 429)) 3 [Request "tracks/1" []]
       (boot None None (Some (cached "old" 5000)))).
Proof.
  apply (rate_limit_sticky (net 1000 "new" 3600000 (always 429)) 3
           [Request "tracks/1" []] (boot None None (Some (cached "old" 5000)))).
  - simpl. discriminate.
  - vm_compute. reflexivity.
Defined.

(** *** The token cache *)

(** C2 fails on the code.  A client without a cache file raises [KeyError]
    on its first [get_valid_access_token].  And a client with credentials
    stores the mode of a fresh token under the key ["tyoe"]: the cache has no
    ["type"], and the next [get_valid_access_token], at the same instant,
    asks for a token again. *)
Theorem token_cache_defects n id secret now tok ttl :
  get_valid_access_token n (boot id secret None)
  = (Exc (KeyError "expires_at"), boot id secret None)
  /\ exists p1,
       get_access_token (net now tok ttl (always 200))
         (boot (Some "id") (Some "secret") None) = (Ret tt, p1)
       /\ spotify_cache (client p1) !! "expires_at" = Some (JNum (now + ttl))
       /\ spotify_cache (client p1) !! "type" = None
       /\ type (client p1) = "api"
       /\ trace (snd (get_valid_access_token (net now tok ttl (always 200)) p1))
          = (trace p1 ++ [ PostApiToken "id" "secret";
                           WriteCacheFile (spotify_cache (client p1)) ])%list.
Proof.
  split; [reflexivity|].
  eexists. split; [reflexivity|].
  split; [reflexivity|]. split; [reflexivity|]. split; [reflexivity|].
  rewrite (untyped_cache_refreshes _ _ (now + ttl)%Z); reflexivity.
Qed.

(** *** Retries on 401 *)

Section Healthy.

Variable n : Net.
Hypothesis H : healthy n.

Lemma get_visitor_token_healthy p :
  exists p', get_visitor_token n p = (Ret tt, p')
             /\ usable (client p') /\ frame p p'
             /\ (count is_token_fetch (trace p) < count is_token_fetch (trace p'))%nat.
Proof.
  destruct H as [Hv _]. destruct (Hv (trace p)) as (tok & ms & Ht & Hm).
  unfold get_visitor_token. rewrite Ht, Hm.
  eexists. split; [reflexivity|]. split; [|split].
  - split; [eexists; reflexivity | eexists; reflexivity].
  - eapply frame_trans; [apply (frame_emit GetVisitorToken); reflexivity|].
    apply frame_write. reflexivity.
  - unfold write_cache_file, emit; simpl. rewrite !count_emit. simpl. lia.
Qed.

Lemma get_access_token_healthy p :
  exists p', get_access_token n p = (Ret tt, p')
             /\ usable (client p') /\ frame p p'
             /\ (count is_token_fetch (trace p) < count is_token_fetch (trace p'))%nat.
Proof.
  unfold get_access_token.
  destruct (client_id (client p)) as [id|]; [|apply get_visitor_token_healthy].
  destruct (client_secret (client p)) as [secret|]; [|apply get_visitor_token_healthy].
  destruct (truthy id && truthy secret); [|apply get_visitor_token_healthy].
  destruct H as [_ Ha].
  destruct (Ha (trace p) id secret) as [(-> & [d ->]) | (-> & [ttl Httl] & [tok Htok])].
  - destruct (get_visitor_token_healthy
                (set_client (drop_credentials (client (emit (PostApiToken id secret) p)))
                   (emit (PostApiToken id secret) p)))
      as (p' & -> & U & F & C).
    exists p'. split; [reflexivity|]. split; [exact U|]. split.
    + eapply frame_trans; [apply (frame_emit (PostApiToken id secret)); reflexivity|].
      eapply frame_trans; [|exact F]. repeat split; simpl; lia.
    + eapply Nat.le_lt_trans; [|exact C]. unfold emit; simpl.
      rewrite count_emit. lia.
  - rewrite lookup_insert_ne by done. rewrite Httl.
    eexists. split; [reflexivity|]. split; [|split].
    + split; simpl.
      * eexists. apply lookup_insert_eq.
      * rewrite !lookup_insert_ne by done. by eexists.
    + eapply frame_trans; [apply (frame_emit (PostApiToken id secret)); reflexivity|].
      apply frame_write. reflexivity.
    + unfold write_cache_file, emit; simpl. rewrite !count_emit. simpl. lia.
Qed.

Lemma get_valid_access_token_healthy p :
  usable (client p) ->
  exists tok p', get_valid_access_token n p = (Ret tok, p')
                 /\ usable (client p') /\ frame p p'.
Proof.
  intros U. pose proof U as ([t Ht] & [tok Htok]).
  unfold get_valid_access_token. rewrite Ht.
  destruct (_ || _).
  - destruct (get_access_token_healthy p) as (p' & -> & U' & F & _).
    pose proof U' as (_ & [tok' Htok']). rewrite Htok'.
    by exists tok', p'.
  - rewrite Htok. exists tok, p. split; [reflexivity|]. split; [exact U|].
    apply frame_refl.
Qed.

(** The token that [get_valid_access_token] returns is the one the cache
    holds when it returns. *)
Lemma get_valid_access_token_cached p tok p' :
  get_valid_access_token n p = (Ret tok, p') ->
  spotify_cache (client p') !! "access_token" = Some tok.
Proof.
  unfold get_valid_access_token.
  destruct (spotify_cache (client p) !! "expires_at") as [[s|t|]|];
    try discriminate.
  destruct (_ || _).
  - destruct (get_access_token n p) as [[[]|x] p1]; [|discriminate].
    destruct (spotify_cache (client p1) !! "access_token") as [tok1|] eqn:E;
      [|discriminate].
    intros [= <- <-]. exact E.
  - destruct (spotify_cache (client p) !! "access_token") as [tok1|] eqn:E;
      [|discriminate].
    intros [= <- <-]. exact E.
Qed.

(** A server that answers 401 to as many GETs as the recursion limit admits
    nested calls drives [request] to the limit: every level that the limit
    admits sends one more GET, and the call ends with [RecursionError]. *)
Lemma unanswered_401_recurses fuel : forall path params p,
  usable (client p) -> disabled (client p) = false ->
  (forall log path params tok,
     (count is_get log < count is_get (trace p) + fuel)%nat ->
     fst (api n log path params tok) = 401%Z) ->
  fst (request n fuel path params p) = Exc RecursionError
  /\ count is_get (trace (snd (request n fuel path params p)))
     = (count is_get (trace p) + fuel)%nat.
Proof.
  induction fuel as [|fuel IH]; intros path params p U D A; simpl.
  - split; [reflexivity | lia].
  - rewrite D.
    destruct (get_valid_access_token_healthy p U) as (tok & p1 & -> & U1 & F1).
    destruct F1 as (D1 & G1 & _).
    pose proof (A (trace p1) path params tok ltac:(lia)) as A1.
    destruct (api n (trace p1) path params tok) as [status body].
    simpl in A1; subst status. simpl.
    destruct (get_access_token_healthy (emit (GetApi path params tok 401) p1))
      as (p3 & -> & U3 & F3 & _).
    destruct F3 as (D3 & G3 & _).
    unfold emit in D3, G3; simpl in D3, G3. rewrite count_emit in G3; simpl in G3.
    destruct (IH path params p3 U3) as (R & C).
    + congruence.
    + intros log path' params' tok' Hlog. apply A. lia.
    + split; [exact R|]. rewrite C. lia.
Qed.

End Healthy.

(** C8, as the code has it: every 401 is followed by one forced token
    refresh and one more attempt through the same wrapper, and the number of
    attempts has no bound but the recursion limit.  With token endpoints
    that answer well-formed documents, a usable cache and a client that is
    not disabled: a server that answers 401 to the next [k] GETs and 200 to
    the one after, with [k] below the depth of recursion that is left, gets
    exactly [k + 1] GETs and at least [k] token requests; the last GET
    carries the token of the cache, and [request] returns the body of its
    answer. *)
Theorem retries_follow_401 n k : forall fuel path params p,
  healthy n ->
  usable (client p) ->
  disabled (client p) = false ->
  (k < fuel)%nat ->
  (forall log path params tok,
     (count is_get log < count is_get (trace p) + k)%nat ->
     fst (api n log path params tok) = 401%Z) ->
  (forall log path params tok,
     count is_get log = (count is_get (trace p) + k)%nat ->
     fst (api n log path params tok) = 200%Z) ->
  exists tok p1,
    request n fuel path params p
    = (Ret (Some (snd (api n (trace p1) path params tok))),
       emit (GetApi path params tok 200) p1)
    /\ spotify_cache (client p1) !! "access_token" = Some tok
    /\ fst (api n (trace p1) path params tok) = 200%Z
    /\ count is_get (trace (emit (GetApi path params tok 200) p1))
       = (count is_get (trace p) + k + 1)%nat
    /\ (count is_token_fetch (trace p) + k
        <= count is_token_fetch (trace (emit (GetApi path params tok 200) p1)))%nat.
Proof.
  induction k as [|k IH]; intros fuel path params p Hn U D Hk A401 A200;
    (destruct fuel as [|fuel]; [lia|]).
  - cbn [request]. rewrite D.
    destruct (get_valid_access_token_healthy n Hn p U) as (tok & p1 & E & U1 & F1).
    rewrite E. pose proof (get_valid_access_token_cached n p tok p1 E) as Hc.
    destruct F1 as (D1 & G1 & _ & T1).
    pose proof (A200 (trace p1) path params tok ltac:(lia)) as A.
    exists tok, p1.
    destruct (api n (trace p1) path params tok) as [status body].
    simpl in A. subst status. simpl.
    split; [reflexivity|]. split; [exact Hc|]. split; [reflexivity|].
    rewrite !count_emit. simpl. lia.
  - cbn [request]. rewrite D.
    destruct (get_valid_access_token_healthy n Hn p U) as (tok & p1 & -> & U1 & F1).
    destruct F1 as (D1 & G1 & _ & T1).
    pose proof (A401 (trace p1) path params tok) as A.
    destruct (api n (trace p1) path params tok) as [status body].
    simpl in A. rewrite A by lia. simpl.
    destruct (get_access_token_healthy n Hn (emit (GetApi path params tok 401) p1))
      as (p3 & -> & U3 & F3 & T3).
    destruct F3 as (D3 & G3 & _).
    unfold emit in D3, G3, T3; simpl in D3, G3, T3.
    rewrite count_emit in G3, T3; simpl in G3, T3.
    destruct (IH fuel path params p3 Hn U3) as (tok' & p' & R & Hc & S200 & G & T).
    + congruence.
    + lia.
    + intros; apply A401; lia.
    + intros; apply A200; lia.
    + exists tok', p'. split; [exact R|]. split; [exact Hc|].
      split; [exact S200|].
      unfold emit in G, T |- *; cbn [trace] in G, T |- *. split; lia.
Qed.

Lemma healthy_net now tok ttl status : healthy (net now tok ttl status).
Proof.
  split.
  - intros log. exists (JStr tok), ttl. split; reflexivity.
  - intros log id secret. right. split; [reflexivity|].
    split; [exists ttl; reflexivity | exists (JStr tok); reflexivity].
Qed.

(** An instance: two 401s, then 200, with room for three nested calls. *)
Lemma retries_follow_401_witness :
  exists tok p1,
    request (net 1000 "new" 3600000 (flaky 2)) 3 "tracks/1" []
      (boot None None (Some (cached "old" 5000)))
    = (Ret (Some (snd (api (net 1000 "new" 3600000 (flaky 2)) (trace p1)
                         "tracks/1" [] tok))),
       emit (GetApi "tracks/1" [] tok 200) p1)
    /\ spotify_cache (client p1) !! "access_token" = Some tok
    /\ fst (api (net 1000 "new" 3600000 (flaky 2)) (trace p1) "tracks/1" [] tok)
       = 200%Z
    /\ count is_get (trace (emit (GetApi "tracks/1" [] tok 200) p1)) = 3%nat
    /\ (2 <= count is_token_fetch
               (trace (emit (GetApi "tracks/1" [] tok 200) p1)))%nat.
Proof.
  apply (retries_follow_401 (net 1000 "new" 3600000 (flaky 2)) 2 3 "tracks/1" []
           (boot None None (Some (cached "old" 5000)))).
  - apply healthy_net.
  - split; [exists 5000%Z; reflexivity | exists (JStr "old"); reflexivity].
  - reflexivity.
  - lia.
  - intros log path params tok Hc. simpl in *. unfold flaky.
    destruct (Nat.ltb_spec (count is_get log) 2); [reflexivity | lia].
  - intros log path params tok Hc. simpl in *. rewrite Hc. reflexivity.
Defined.

(** C8 fails as stated: answered 401 twice and then 200, one call of
    [request] retries twice; it sends three GETs and two token requests. *)
Lemma two_401_two_retries :
  fst (request (net 1000 "new" 3600000 (flaky 2)) 3 "tracks/1" []
         (boot None None (Some (cached "old" 5000))))
  = Ret (Some "{}")
  /\ List.filter (fun ev => is_get ev || is_token_fetch ev)
       (trace (snd (request (net 1000 "new" 3600000 (flaky 2)) 3 "tracks/1" []
                      (boot None None (Some (cached "old" 5000))))))
     = [ GetApi "tracks/1" [] (JStr "old") 401; GetVisitorToken;
         GetApi "tracks/1" [] (JStr "new") 401; GetVisitorToken;
         GetApi "tracks/1" [] (JStr "new") 200 ].
Proof. split; vm_compute; reflexivity. Qed.

End SpotifyFacts.

(** ** Properties of the string methods *)

Module PyStrFacts.

Import PyStr.

Lemma substring_nil n m : String.substring n m EmptyString = EmptyString.
Proof. destruct n, m; reflexivity. Qed.

Lemma substring_length_le s : forall n m,
  (String.length (String.substring n m s) <= String.length s - n)%nat.
Proof.
  induction s as [|c s IH]; intros n m.
  - rewrite substring_nil. simpl. lia.
  - destruct n as [|n]; simpl.
    + destruct m as [|m]; simpl; [lia|]. specialize (IH 0%nat m). lia.
    + apply IH.
Qed.

(** Cutting a slice in two. *)
Lemma substring_cut s : forall n m k,
  String.substring n (m + k) s
  = String.substring n m s ++ String.substring (n + m) k s.
Proof.
  induction s as [|c s IH]; intros n m k.
  - by rewrite !substring_nil.
  - destruct n as [|n]; simpl.
    + destruct m as [|m]; simpl; [reflexivity|].
      rewrite (IH 0%nat m k). reflexivity.
    + apply IH.
Qed.

Lemma substring_all s : String.substring 0 (String.length s) s = s.
Proof. induction s as [|c s IH]; simpl; [reflexivity | by rewrite IH]. Qed.

Lemma substring_prefix s2 : forall s1 n m,
  (n + m <= String.length s1)%nat ->
  String.substring n m (s1 ++ s2) = String.substring n m s1.
Proof.
  intros s1; induction s1 as [|c s1 IH]; intros n m Hle; simpl in *.
  - assert (n = 0 /\ m = 0)%nat as [-> ->] by lia. by destruct s2.
  - destruct n as [|n].
    + destruct m as [|m]; [reflexivity|]. f_equal. apply (IH 0%nat). lia.
    + apply IH. lia.
Qed.

Lemma substring_suffix s1 : forall s2 m,
  String.substring (String.length s1) m (s1 ++ s2) = String.substring 0 m s2.
Proof. induction s1 as [|c s1 IH]; intros s2 m; simpl; [reflexivity | apply IH]. Qed.

Lemma length_app s1 s2 :
  String.length (s1 ++ s2) = (String.length s1 + String.length s2)%nat.
Proof. induction s1 as [|c s1 IH]; simpl; [reflexivity | by rewrite IH]. Qed.

Lemma substring_of_substring s : forall i n m,
  (n + m <= i)%nat ->
  String.substring n m (String.substring 0 i s) = String.substring n m s.
Proof.
  induction s as [|c s IH]; intros i n m Hle.
  - by rewrite !substring_nil.
  - destruct i as [|i]; simpl.
    + assert (n = 0 /\ m = 0)%nat as [-> ->] by lia. reflexivity.
    + destruct n as [|n].
      * destruct m as [|m]; [reflexivity|]. f_equal. apply IH. lia.
      * apply IH. lia.
Qed.

Lemma append_empty s : s ++ EmptyString = s.
Proof.
  induction s as [|c s IH]; [reflexivity|].
  change (String c (s ++ EmptyString) = String c s). by rewrite IH.
Qed.

Lemma substring_length_max s : forall i,
  (String.length (String.substring 0 i s) <= i)%nat.
Proof.
  induction s as [|c s IH]; intros i.
  - rewrite substring_nil. simpl. lia.
  - destruct i; simpl; [lia|]. specialize (IH i). lia.
Qed.

Lemma substring_beyond s : forall n m,
  (String.length s <= n)%nat -> String.substring n m s = EmptyString.
Proof.
  induction s as [|c s IH]; intros n m Hn.
  - apply substring_nil.
  - destruct n as [|n]; simpl in *; [lia|]. apply IH. lia.
Qed.

(** [s.endswith(suf)] says that [s] is something followed by [suf], and
    [s[:-len(suf)]] is that something. *)
Theorem endswith_drop_last s suf :
  endswith s suf = true <-> s = drop_last (String.length suf) s ++ suf.
Proof.
  unfold endswith, drop_last. split.
  - intros H. apply andb_true_iff in H as [Hle Heq].
    apply Nat.leb_le in Hle. apply String.eqb_eq in Heq.
    pose proof (substring_cut s 0 (String.length s - String.length suf)
                  (String.length suf)) as C.
    replace (String.length s - String.length suf + String.length suf)%nat
      with (String.length s) in C by lia.
    rewrite substring_all in C. simpl in C. rewrite Heq in C. exact C.
  - intros H.
    set (p := String.substring 0 (String.length s - String.length suf) s) in *.
    assert (Hp : String.length s = (String.length p + String.length suf)%nat).
    { rewrite H at 1. apply length_app. }
    apply andb_true_iff. split; [apply Nat.leb_le; lia|].
    apply String.eqb_eq.
    replace (String.length s - String.length suf)%nat with (String.length p) by lia.
    rewrite H. rewrite substring_suffix. apply substring_all.
Qed.

(** [s.startswith(p)] says that [s] is [p] followed by something. *)
Theorem startswith_app s p :
  startswith s p = true <-> exists r, s = p ++ r.
Proof.
  unfold startswith. rewrite prefix_correct. split.
  - intros H.
    exists (String.substring (String.length p) (String.length s - String.length p) s).
    assert (Hle : (String.length p <= String.length s)%nat).
    { rewrite <- H at 1. etransitivity; [apply substring_length_le|]. lia. }
    pose proof (substring_cut s 0 (String.length p)
                  (String.length s - String.length p)) as C.
    replace (String.length p + (String.length s - String.length p))%nat
      with (String.length s) in C by lia.
    rewrite substring_all, H in C. exact C.
  - intros [r ->]. rewrite substring_prefix by lia. apply substring_all.
Qed.

(** The two names unpacked from [s.split(sep, maxsplit=1)] put [s] together
    again around [sep], and [sep] starts nowhere in [s] before the cut. *)
Theorem split_once_join sep s a b :
  split_once sep s = Some (a, b) ->
  s = a ++ sep ++ b
  /\ forall p, (p < String.length a)%nat ->
       String.substring p (String.length sep) s <> sep.
Proof.
  unfold split_once.
  destruct (String.index 0 sep s) as [i|] eqn:E; [|discriminate].
  intros [= <- <-].
  pose proof (index_correct1 _ _ _ _ E) as Hsep.
  assert (Hlen : (String.length sep <= String.length s - i)%nat).
  { rewrite <- Hsep at 1. apply substring_length_le. }
  split.
  - destruct (Nat.le_gt_cases i (String.length s)) as [Hi|Hi].
    + pose proof (substring_cut s 0 i (String.length s - i)) as C1.
      replace (i + (String.length s - i))%nat with (String.length s) in C1 by lia.
      rewrite substring_all in C1. simpl in C1.
      pose proof (substring_cut s i (String.length sep)
                    (String.length s - (i + String.length sep))) as C2.
      replace (String.length sep + (String.length s - (i + String.length sep)))%nat
        with (String.length s - i)%nat in C2 by lia.
      rewrite Hsep in C2. rewrite C2 in C1. exact C1.
    + assert (Hz : String.length sep = 0%nat) by lia.
      destruct sep; [|discriminate Hz]. simpl.
      rewrite !(substring_beyond s (i + 0)) by lia.
      pose proof (substring_cut s 0 (String.length s) (i - String.length s)) as C.
      replace (String.length s + (i - String.length s))%nat with i in C by lia.
      rewrite substring_all in C. simpl in C.
      rewrite (substring_beyond s (String.length s)) in C by lia.
      rewrite C. simpl. by rewrite !append_empty.
  - intros p Hp. apply (index_correct2 _ _ _ _ E); [lia|].
    eapply Nat.lt_le_trans; [exact Hp | apply substring_length_max].
Qed.

Lemma substring_middle a sep b :
  String.substring (String.length a) (String.length sep) (a ++ sep ++ b) = sep.
Proof.
  rewrite substring_suffix, substring_prefix by lia. apply substring_all.
Qed.

(** The head of [s.split(sep)] holds no [sep]. *)
Lemma split_head_clean sep s a b :
  sep <> EmptyString -> split_head sep s <> a ++ sep ++ b.
Proof.
  intros Hne Heq.
  assert (Hpos : (0 < String.length sep)%nat).
  { destruct sep; [congruence | simpl; lia]. }
  pose proof (substring_middle a sep b) as Hmid. rewrite <- Heq in Hmid.
  assert (Hlen : String.length (split_head sep s)
                 = (String.length a + (String.length sep + String.length b))%nat).
  { rewrite Heq, !length_app. reflexivity. }
  unfold split_head in *.
  destruct (String.index 0 sep s) as [i|] eqn:E.
  - pose proof (substring_length_max s i) as Hmax.
    rewrite substring_of_substring in Hmid by lia.
    apply (index_correct2 _ _ _ _ E (String.length a)); [lia | lia | exact Hmid].
  - apply (index_correct3 0 (String.length a) _ _ E Hne); [lia | exact Hmid].
Qed.

Lemma drop_last_app x suf : drop_last (String.length suf) (x ++ suf) = x.
Proof.
  unfold drop_last. rewrite length_app.
  replace (String.length x + String.length suf - String.length suf)%nat
    with (String.length x) by lia.
  rewrite substring_prefix by lia. apply substring_all.
Qed.

Lemma endswith_app x suf : endswith (x ++ suf) suf = true.
Proof. apply endswith_drop_last. by rewrite drop_last_app. Qed.

End PyStrFacts.

(** ** Properties of the fields computed for a track *)

Module TrackFacts.

Import PyStr LastFm PyStrFacts.

Open Scope Z_scope.

(** Whatever the track, the artist submitted holds no comma. *)
Theorem artist_has_no_comma track f a b :
  track_fields track = Some f -> artist f <> a ++ "," ++ b.
Proof.
  unfold track_fields.
  destruct (in_list (sourceName track) ["youtube"; "soundcloud"]).
  - destruct (negb (truthy (album_name track))); [discriminate|].
    destruct (if truthy (ytid track) then _ else _) as [x y].
    intros [= <-]. simpl. by apply split_head_clean.
  - intros [= <-]. simpl. by apply split_head_clean.
Qed.

(** A track yields no fields exactly when it comes from youtube or
    soundcloud and has no album name. *)
Theorem no_fields_iff track :
  track_fields track = None
  <-> in_list (sourceName track) ["youtube"; "soundcloud"] = true
      /\ album_name track = EmptyString.
Proof.
  unfold track_fields, truthy.
  destruct (in_list (sourceName track) ["youtube"; "soundcloud"]).
  - destruct (String.eqb_spec (album_name track) EmptyString) as [-> | Hne]; simpl.
    + split; [by split | reflexivity].
    + destruct (if negb (String.eqb (ytid track) EmptyString) then _ else _).
      split; [discriminate | intros [_ ?]; congruence].
  - split; [discriminate | intros [? _]; discriminate].
Qed.

(** [int(track.duration / 1000)] of line 496 for a length below 2^53 ms:
    the rounding of the quotient does not reach the next whole second. *)
Lemma whole_seconds d :
  0 <= d < 2 ^ 53 -> Float64.trunc (Float64.fl (d # 1000)) = d / 1000.
Proof.
  intros Hd. change (2 ^ 53) with 9007199254740992 in Hd.
  destruct (Z.eq_dec d 0) as [-> | Hnz]; [reflexivity|].
  pose proof (Z.div_mod d 1000 ltac:(lia)) as Hdm.
  pose proof (Z.mod_pos_bound d 1000 ltac:(lia)) as Hr.
  set (k := d / 1000) in *. set (r := d mod 1000) in *.
  assert (Hx : (0 < d # 1000)%Q) by (unfold Qlt; simpl; lia).
  apply Float64Facts.trunc_between; [| | lia].
  - destruct (Z.eq_dec r 0) as [Hr0 | Hr0].
    + rewrite (Float64Facts.fl_proper (d # 1000) (inject_Z k))
        by (unfold Qeq, inject_Z; simpl; lia).
      rewrite Float64Facts.fl_exact_Z
        by (change (2 ^ 53) with 9007199254740992; lia).
      apply Qle_refl.
    + eapply Qle_trans; [|apply (Float64Facts.fl_lower _ Hx)].
      unfold Qle, Qmult, Qminus, Qplus, Qopp, Float64.eps, inject_Z;
        cbn [Qnum Qden]. lia.
  - eapply Qle_lt_trans; [apply (Float64Facts.fl_upper _ Hx)|].
    unfold Qlt, Qmult, Qplus, Float64.eps, inject_Z; cbn [Qnum Qden]. lia.
Qed.

Lemma duration_s_value track f :
  track_fields track = Some f ->
  duration_s f = Float64.trunc (Float64.fl (duration track # 1000)).
Proof.
  unfold track_fields.
  destruct (in_list (sourceName track) ["youtube"; "soundcloud"]).
  - destruct (negb (truthy (album_name track))); [discriminate|].
    destruct (if truthy (ytid track) then _ else _) as [x y].
    by intros [= <-].
  - by intros [= <-].
Qed.

(** The duration submitted is the whole number of seconds of the track: for
    a track of non-negative length below 2^53 ms, where the float quotient
    of line 496 is still within a second of the exact one, the floor of its
    milliseconds. *)
Theorem duration_is_floor track f :
  track_fields track = Some f ->
  0 <= duration track < 2 ^ 53 ->
  1000 * duration_s f <= duration track < 1000 * duration_s f + 1000.
Proof.
  intros Hf Hd.
  rewrite (duration_s_value _ _ Hf), (whole_seconds _ Hd).
  pose proof (Z.mul_div_le (duration track) 1000).
  pose proof (Z.mul_succ_div_gt (duration track) 1000). lia.
Qed.

(** An upload of a topic channel: the uploader is [x] followed by
    " - topic" (and not by "Release - topic"), the track has a youtube id and
    an album name, and the title does not start with [x].  Then the artist is
    [x] up to its first comma and the track name is the whole title. *)
Theorem topic_channel_fields track x :
  in_list (sourceName track) ["youtube"; "soundcloud"] = true ->
  truthy (album_name track) = true ->
  truthy (ytid track) = true ->
  author track = x ++ " - topic" ->
  endswith (author track) "Release - topic" = false ->
  startswith (title track) x = false ->
  exists f, track_fields track = Some f
            /\ artist f = split_head "," x
            /\ name f = title track
            /\ album f = album_name track.
Proof.
  intros Hsrc Halb Hyt Hau Hrel Hst.
  unfold track_fields. rewrite Hsrc, Halb, Hyt. simpl.
  rewrite Hrel. rewrite Hau.
  rewrite (endswith_app x " - topic").
  change 8%nat with (String.length " - topic").
  rewrite drop_last_app, Hst. simpl.
  eexists. split; [reflexivity|]. repeat split.
Qed.

(** An upload of another channel, with a youtube id and an album name: a
    title with a " - " is cut at the first one, the part before it (up to
    its first comma) is the artist, the part after it the track name; a
    title without one is the track name, with the uploader as artist. *)
Theorem title_split_fields track f :
  in_list (sourceName track) ["youtube"; "soundcloud"] = true ->
  truthy (ytid track) = true ->
  endswith (author track) " - topic"
  && negb (endswith (author track) "Release - topic")
  && negb (startswith (title track) (drop_last 8 (author track))) = false ->
  track_fields track = Some f ->
  (exists a, title track = a ++ " - " ++ name f
             /\ artist f = split_head "," a
             /\ forall p, (p < String.length a)%nat ->
                  String.substring p 3 (title track) <> " - ")
  \/ (String.index 0 " - " (title track) = None
      /\ name f = title track
      /\ artist f = split_head "," (author track)).
Proof.
  intros Hsrc Hyt Hend. unfold track_fields. rewrite Hsrc, Hyt, Hend. simpl.
  destruct (negb (truthy (album_name track))); [discriminate|].
  destruct (split_once " - " (title track)) as [[a nm]|] eqn:E.
  - intros [= <-]. simpl. left. exists a.
    destruct (split_once_join _ _ _ _ E) as [Hj Hfirst].
    split; [exact Hj|]. split; [reflexivity | exact Hfirst].
  - intros [= <-]. simpl. right.
    unfold split_once in E.
    destruct (String.index 0 " - " (title track)); [discriminate|].
    repeat split.
Qed.

(** An instance: the artist of the spotify track is "Band". *)
Lemma artist_has_no_comma_witness :
  "Band" <> "Ba" ++ "," ++ "nd".
Proof.
  apply (artist_has_no_comma Cases.song
           {| artist := "Band"; name := "Song"; album := "Song"; duration_s := 200 |}
           "Ba" "nd").
  reflexivity.
Defined.

(** An instance: a youtube upload without album name. *)
Lemma no_fields_iff_witness :
  track_fields (Cases.upload "Artist - topic" EmptyString "x") = None.
Proof.
  apply (no_fields_iff (Cases.upload "Artist - topic" EmptyString "x")).
  split; reflexivity.
Defined.

(** An instance: 10 s and 999 ms are 10 s. *)
Lemma duration_is_floor_witness :
  1000 * 10 <= 10999 < 1000 * 10 + 1000.
Proof.
  apply (duration_is_floor
           {| uri := "u"; url := "u"; title := "Jingle"; single_title := "Jingle";
              author := "Band"; album_name := "Ads"; duration := 10999;
              sourceName := "spotify"; is_stream := false; requester := 1;
              ytid := EmptyString; autoplay := false |}
           {| artist := "Band"; name := "Jingle"; album := "Ads"; duration_s := 10 |}).
  - reflexivity.
  - split; [simpl; lia | reflexivity].
Defined.

(** An instance: the topic channel of "Artist, Other". *)
Lemma topic_channel_fields_witness :
  exists f, track_fields (Cases.upload "Artist, Other - topic" "Album" "x") = Some f
            /\ artist f = "Artist"
            /\ name f = "Song Title"
            /\ album f = "Album".
Proof.
  apply (topic_channel_fields (Cases.upload "Artist, Other - topic" "Album" "x")
           "Artist, Other"); reflexivity.
Defined.

(** An instance: a title with two separators. *)
Lemma title_split_fields_witness :
  (exists a, "Band, Guest - Song - Live" = a ++ " - " ++ "Song - Live"
             /\ "Band" = split_head "," a
             /\ forall p, (p < String.length a)%nat ->
                  String.substring p 3 "Band, Guest - Song - Live" <> " - ")
  \/ (String.index 0 " - " "Band, Guest - Song - Live" = None
      /\ "Song - Live" = "Band, Guest - Song - Live"
      /\ "Band" = split_head "," "Uploader").
Proof.
  apply (title_split_fields
           {| uri := "u"; url := "u"; title := "Band, Guest - Song - Live";
              single_title := "Song"; author := "Uploader"; album_name := "Album";
              duration := 200000; sourceName := "youtube"; is_stream := false;
              requester := 1; ytid := "x"; autoplay := false |}
           {| artist := "Band"; name := "Song - Live"; album := "Album";
              duration_s := 200 |}); reflexivity.
Defined.

End TrackFacts.

(** ** Properties of the loop over the listeners *)

Module BatchFacts.

Import PyStr LastFm Gate Cases LastFmFacts.

Open Scope Z_scope.

Section Batch.

Variable e : Env.
Variable track : LavalinkTrack.
Variable f : fields.
Variable np : bool.

Lemma scrobble_user_excluded st v :
  excluded v = true -> scrobble_user e track f np st v = st.
Proof.
  unfold excluded, scrobble_user. destruct (bot v); [reflexivity|]. simpl.
  destruct (voice v) as [vs|]; [|reflexivity].
  intros ->. reflexivity.
Qed.

(** Bots, listeners without a voice state and deafened listeners take no
    part in a batch: it runs as if they were not in the roster. *)
Theorem excluded_listeners_skipped l : forall st,
  scrobble_users e track f np st l
  = scrobble_users e track f np st (List.filter (fun v => negb (excluded v)) l).
Proof.
  induction l as [|v l IH]; intros st; simpl; [reflexivity|].
  destruct (excluded v) eqn:E; simpl.
  - rewrite scrobble_user_excluded by exact E. apply IH.
  - apply IH.
Qed.

Lemma resolve_session_again w u fm w1 :
  resolve_session e w u = (fm, w1) -> resolve_session e w1 u = (fm, w1).
Proof.
  unfold resolve_session.
  destruct (lastfm_sessions w !! u) as [f0|] eqn:E; intros [= <- <-].
  - by rewrite E.
  - simpl. by rewrite lookup_insert_eq.
Qed.

Lemma resolve_session_fst w u :
  fst (resolve_session e w u)
  = match lastfm_sessions w !! u with
    | Some f0 => f0
    | None => get_global_data e w u
    end.
Proof. unfold resolve_session. by destruct (lastfm_sessions w !! u). Qed.

Lemma opted_out_untouched u st st' :
  untouched u st st' -> opted_out e (fst st) u -> opted_out e (fst st') u.
Proof.
  intros (Hdb & Hses & _ & _). unfold opted_out.
  rewrite !resolve_session_fst. unfold get_global_data.
  rewrite Hdb, Hses. done.
Qed.

Lemma scrobble_user_opted_out st v :
  opted_out e (fst st) (id v) ->
  calls (fst (scrobble_user e track f np st v)) = calls (fst st)
  /\ users_db (fst (scrobble_user e track f np st v)) = users_db (fst st)
  /\ snd (scrobble_user e track f np st v) = snd st
  /\ opted_out e (fst (scrobble_user e track f np st v)) (id v).
Proof.
  intros O. unfold scrobble_user.
  destruct (bot v); [by repeat split|].
  destruct (voice v) as [vs|]; [|by repeat split].
  destruct (self_deaf vs || deaf vs); [by repeat split|].
  unfold opted_out in O.
  destruct (resolve_session e (fst st) (id v)) as [fm w1] eqn:R. simpl in O.
  assert (Hskip : negb (scrobble fm) || negb (truthy (sessionkey fm)) = true).
  { destruct O as [-> | ->]; [reflexivity | apply orb_true_r]. }
  rewrite Hskip. simpl.
  pose proof (resolve_session_again _ _ _ _ R) as R1.
  apply resolve_session_frame in R as (Hdb & Hcalls & _ & _).
  repeat split; try assumption.
  unfold opted_out. rewrite R1. exact O.
Qed.

(** A listener whose session has scrobbling disabled, or no session key,
    gets nothing from a batch: no call is made for the listener, the stored
    session and the mark stay as they are, and the listener is still opted
    out afterwards. *)
Theorem opted_out_listener_skipped u l : forall st,
  opted_out e (fst st) u ->
  List.filter (call_of u) (calls (fst (scrobble_users e track f np st l)))
  = List.filter (call_of u) (calls (fst st))
  /\ users_db (fst (scrobble_users e track f np st l)) !! u = users_db (fst st) !! u
  /\ lastfm_users (snd (scrobble_users e track f np st l)) !! u
     = lastfm_users (snd st) !! u
  /\ opted_out e (fst (scrobble_users e track f np st l)) u.
Proof.
  induction l as [|v l IH]; intros st O; simpl; [by repeat split|].
  destruct (Z.eq_dec (id v) u) as [<- | Hne].
  - destruct (scrobble_user_opted_out st v O) as (Hc & Hdb & Hp & O').
    destruct (IH _ O') as (I1 & I2 & I3 & I4).
    rewrite I1, I2, I3, Hc, Hdb, Hp. by repeat split.
  - pose proof (scrobble_user_other e track f np st v u Hne) as U.
    destruct (IH _ (opted_out_untouched _ _ _ U O)) as (I1 & I2 & I3 & I4).
    destruct U as (U1 & _ & U3 & U4).
    rewrite I1, I2, I3, U1, U3, U4. by repeat split.
Qed.

Lemma make_call_kind fm u :
  is_scrobble (u, make_call track f np fm u) = negb np.
Proof.
  unfold make_call, is_scrobble. destruct np; [reflexivity|]. simpl.
  by destruct (negb (requester track =? u)).
Qed.

Lemma scrobble_user_calls st v :
  exists added,
    calls (fst (scrobble_user e track f np st v)) = (calls (fst st) ++ added)%list
    /\ (List.length added <= 1)%nat
    /\ Forall (submitted_for track f np [v]) added.
Proof.
  unfold scrobble_user.
  assert (Hnil : exists added : list call_record,
             calls (fst st) = (calls (fst st) ++ added)%list
             /\ (List.length added <= 1)%nat
             /\ Forall (submitted_for track f np [v]) added).
  { exists []. rewrite app_nil_r. repeat split; [simpl; lia | constructor]. }
  destruct (bot v) eqn:Hbot; [exact Hnil|].
  destruct (voice v) as [vs|] eqn:Hvoice; [|exact Hnil].
  destruct (self_deaf vs || deaf vs) eqn:Hdeaf; [exact Hnil|].
  destruct (resolve_session e (fst st) (id v)) as [fm w1] eqn:R.
  apply resolve_session_frame in R as (_ & Hcalls & _ & _).
  destruct (negb (scrobble fm) || negb (truthy (sessionkey fm))) eqn:Hskip.
  { simpl. rewrite Hcalls. exact Hnil. }
  apply orb_false_iff in Hskip as [Hs Hk].
  apply negb_false_iff in Hs, Hk.
  assert (Hone : exists added : list call_record,
             (calls w1 ++ [(id v, make_call track f np fm (id v))])%list
             = (calls (fst st) ++ added)%list
             /\ (List.length added <= 1)%nat
             /\ Forall (submitted_for track f np [v]) added).
  { exists [(id v, make_call track f np fm (id v))]. rewrite Hcalls.
    repeat split; [simpl; lia|]. constructor; [|constructor].
    exists v, fm. unfold excluded. rewrite Hbot, Hvoice, Hdeaf.
    repeat split; try assumption. by left. }
  destruct (last_fm e _ _ _) as [|code|]; [exact Hone| |exact Hone].
  destruct (code =? 9); exact Hone.
Qed.

Lemma submitted_for_mono l l' r :
  (forall v, In v l -> In v l') ->
  submitted_for track f np l r -> submitted_for track f np l' r.
Proof.
  intros Hsub (v & fm & Hin & H). exists v, fm. split; [by apply Hsub | exact H].
Qed.

Lemma scrobble_users_calls l : forall st,
  exists added,
    calls (fst (scrobble_users e track f np st l)) = (calls (fst st) ++ added)%list
    /\ (List.length added <= List.length l)%nat
    /\ Forall (submitted_for track f np l) added.
Proof.
  induction l as [|v l IH]; intros st; simpl.
  - exists []. rewrite app_nil_r. repeat split; [simpl; lia | constructor].
  - destruct (scrobble_user_calls st v) as (a1 & E1 & L1 & F1).
    destruct (IH (scrobble_user e track f np st v)) as (a2 & E2 & L2 & F2).
    exists (a1 ++ a2)%list. rewrite E2, E1, <- app_assoc.
    split; [reflexivity|]. split; [rewrite List.length_app; lia|].
    apply Forall_app. split.
    + eapply Forall_impl; [exact F1|]. intros r.
      apply submitted_for_mono. intros x [-> | []]. by left.
    + eapply Forall_impl; [exact F2|]. intros r.
      apply submitted_for_mono. intros x Hx. by right.
Qed.


(** What the calls of a batch carry: a now-playing event makes
    [update_nowplaying] calls only, a track-end event [track_scrobble] calls
    only; the fields are those computed for the track; the session key is
    not empty; and [chosen_by_user] is passed, as [False], exactly on a
    scrobble for a listener who did not request the track. *)
Theorem batch_calls_content l st :
  exists added,
    calls (fst (scrobble_users e track f np st l)) = (calls (fst st) ++ added)%list
    /\ Forall (fun r =>
         is_scrobble r = negb np
         /\ kw_artist (kwargs_of (snd r)) = artist f
         /\ kw_track (kwargs_of (snd r)) = name f
         /\ kw_album (kwargs_of (snd r)) = album f
         /\ kw_duration (kwargs_of (snd r)) = duration_s f
         /\ kw_session_key (kwargs_of (snd r)) <> EmptyString
         /\ kw_chosen_by_user (kwargs_of (snd r))
            = (if np || (requester track =? fst r) then None else Some false))
       added.
Proof.
  destruct (scrobble_users_calls l st) as (added & E & _ & F).
  exists added. split; [exact E|].
  eapply Forall_impl; [exact F|].
  intros [u c] (v & fm & _ & _ & Hu & Hc & _ & Hk). simpl in *. subst u c.
  assert (Hkey : sessionkey fm <> EmptyString).
  { intros Hz. rewrite Hz in Hk. discriminate Hk. }
  unfold make_call, is_scrobble. destruct np; simpl.
  - by repeat split.
  - destruct (requester track =? id v); simpl; by repeat split.
Qed.

Lemma get_global_data_db w w' u :
  users_db w' !! u = users_db w !! u -> get_global_data e w' u = get_global_data e w u.
Proof. unfold get_global_data. by intros ->. Qed.

Lemma scrobble_user_coherent st v :
  coherent e (fst st) -> coherent e (fst (scrobble_user e track f np st v)).
Proof.
  intros C. unfold scrobble_user.
  destruct (bot v); [exact C|].
  destruct (voice v) as [vs|]; [|exact C].
  destruct (self_deaf vs || deaf vs); [exact C|].
  destruct (resolve_session e (fst st) (id v)) as [fm w1] eqn:R.
  assert (C1 : coherent e w1).
  { unfold resolve_session in R.
    destruct (lastfm_sessions (fst st) !! id v) as [f0|] eqn:E;
      injection R as <- <-; [exact C|].
    intros u g. simpl. unfold get_global_data at 1. simpl.
    destruct (Z.eq_dec (id v) u) as [<- | Hne].
    - rewrite lookup_insert_eq. by intros [= <-].
    - rewrite lookup_insert_ne by done. apply C. }
  destruct (negb (scrobble fm) || negb (truthy (sessionkey fm))); [exact C1|].
  assert (C2 : coherent e (log_call (id v, make_call track f np fm (id v)) w1))
    by exact C1.
  destruct (last_fm e _ _ _) as [|code|]; [exact C2| |exact C2].
  destruct (code =? 9); [|exact C2].
  unfold invalidate. intros u g. simpl. unfold get_global_data at 1. simpl.
  destruct (Z.eq_dec (id v) u) as [<- | Hne].
  - by rewrite lookup_delete_eq.
  - rewrite lookup_delete_ne, lookup_insert_ne by done. apply C1.
Qed.

(** The session cache never disagrees with the store: if every cached
    session is the stored one before a batch, so it is after it. *)
Theorem batch_keeps_cache_coherent l : forall st,
  coherent e (fst st) -> coherent e (fst (scrobble_users e track f np st l)).
Proof.
  induction l as [|v l IH]; intros st C; simpl; [exact C|].
  apply IH, scrobble_user_coherent, C.
Qed.

Lemma clear_sessionkey_twice g : clear_sessionkey (clear_sessionkey g) = clear_sessionkey g.
Proof. reflexivity. Qed.

Lemma scrobble_user_store st v u :
  get_global_data e (fst (scrobble_user e track f np st v)) u
  = get_global_data e (fst st) u
  \/ get_global_data e (fst (scrobble_user e track f np st v)) u
     = clear_sessionkey (get_global_data e (fst st) u).
Proof.
  unfold scrobble_user.
  destruct (bot v); [by left|].
  destruct (voice v) as [vs|]; [|by left].
  destruct (self_deaf vs || deaf vs); [by left|].
  destruct (resolve_session e (fst st) (id v)) as [fm w1] eqn:R.
  apply resolve_session_frame in R as (Hdb & _ & _ & _).
  assert (H1 : get_global_data e w1 u = get_global_data e (fst st) u)
    by (apply get_global_data_db; by rewrite Hdb).
  destruct (negb (scrobble fm) || negb (truthy (sessionkey fm))); [by left|].
  destruct (last_fm e _ _ _) as [|code|]; [by left| |by left].
  destruct (code =? 9); [|by left].
  unfold invalidate. cbn [fst].
  destruct (Z.eq_dec (id v) u) as [<- | Hne].
  - right. rewrite <- H1. unfold get_global_data at 1.
    cbn [users_db set_users_db set_lastfm_sessions log_call].
    by rewrite lookup_insert_eq.
  - left. rewrite <- H1. apply get_global_data_db.
    cbn [users_db set_users_db set_lastfm_sessions log_call].
    by rewrite lookup_insert_ne.
Qed.

(** The only change a batch makes to stored user data is to empty a
    session key: the scrobble switch and the user name stay as stored. *)
Theorem batch_only_clears_keys l u : forall st,
  get_global_data e (fst (scrobble_users e track f np st l)) u
  = get_global_data e (fst st) u
  \/ get_global_data e (fst (scrobble_users e track f np st l)) u
     = clear_sessionkey (get_global_data e (fst st) u).
Proof.
  induction l as [|v l IH]; intros st; simpl; [by left|].
  destruct (IH (scrobble_user e track f np st v)) as [-> | ->];
    destruct (scrobble_user_store st v u) as [-> | ->]; auto.
Qed.

Lemma resolve_session_cached w u fm w1 :
  resolve_session e w u = (fm, w1) -> lastfm_sessions w1 !! u = Some fm.
Proof.
  unfold resolve_session.
  destruct (lastfm_sessions w !! u) as [f0|] eqn:E; intros [= <- <-].
  - exact E.
  - simpl. apply lookup_insert_eq.
Qed.

(** A submission the service accepts leaves a mark for the listener: the
    URL of the track, expiring the track's whole seconds after the
    submission, where that expiry is a [datetime].  In a batch [l1 ++ user :: l2] where [user] does not occur
    again in [l2], the mark is there when the batch is over, the session is
    cached and stored as before, and until the mark expires a voice-state
    update of [user] for a current track with that URI finds the mark. *)
Theorem accepted_submission_marks st l1 user l2 vs fm w1 :
  bot user = false ->
  voice user = Some vs ->
  self_deaf vs || deaf vs = false ->
  resolve_session e (fst (scrobble_users e track f np st l1)) (id user) = (fm, w1) ->
  scrobble fm = true ->
  truthy (sessionkey fm) = true ->
  last_fm e (calls w1) (id user) (make_call track f np fm (id user)) = Ok ->
  is_datetime (utcnow w1) ->
  is_datetime (utcnow w1 + duration_s f * 1000000) ->
  Forall (fun v => id v <> id user) l2 ->
  lastfm_users (snd (scrobble_users e track f np st (l1 ++ user :: l2))) !! id user
  = Some {| last_url := url track;
            last_timestamp := Some (utcnow w1 + duration_s f * 1000000) |}
  /\ lastfm_sessions (fst (scrobble_users e track f np st (l1 ++ user :: l2)))
       !! id user = Some fm
  /\ users_db (fst (scrobble_users e track f np st (l1 ++ user :: l2))) !! id user
     = users_db (fst (scrobble_users e track f np st l1)) !! id user
  /\ forall w2 cur,
       uri cur = url track ->
       utcnow w2 < utcnow w1 + duration_s f * 1000000 ->
       marked w2 (snd (scrobble_users e track f np st (l1 ++ user :: l2))) cur user
       = true.
Proof.
  intros Hbot Hvoice Hdeaf Hres Hscr Hkey Hok _ _ Hl2.
  rewrite scrobble_users_app. simpl.
  set (st1 := scrobble_users e track f np st l1) in *.
  set (m := {| last_url := url track;
               last_timestamp := Some (utcnow w1 + duration_s f * 1000000) |}).
  assert (Hstep : scrobble_user e track f np st1 user
                  = (log_call (id user, make_call track f np fm (id user)) w1,
                     set_lastfm_users (<[id user := m]> (lastfm_users (snd st1)))
                       (snd st1))).
  { unfold scrobble_user. rewrite Hbot, Hvoice, Hdeaf, Hres, Hscr, Hkey. simpl.
    rewrite Hok. reflexivity. }
  rewrite Hstep.
  set (st2 := (log_call (id user, make_call track f np fm (id user)) w1,
               set_lastfm_users (<[id user := m]> (lastfm_users (snd st1))) (snd st1))).
  destruct (scrobble_users_other e track f np (id user) l2 st2 Hl2)
    as (Hdb & Hses & Hmark & _).
  pose proof (resolve_session_cached _ _ _ _ Hres) as Hc.
  apply resolve_session_frame in Hres as (Hdb1 & _ & _ & _).
  assert (Hm : lastfm_users (snd (scrobble_users e track f np st2 l2)) !! id user
               = Some m).
  { rewrite Hmark. simpl. apply lookup_insert_eq. }
  split; [exact Hm|]. split; [rewrite Hses; exact Hc|].
  split; [rewrite Hdb; simpl; by rewrite Hdb1|].
  intros w2 cur Huri Hlt. unfold marked. rewrite Hm. simpl.
  rewrite Huri, String.eqb_refl. simpl.
  destruct (utcnow w2 <? utcnow w1 + duration_s f * 1000000) eqn:E; [reflexivity | lia].
Qed.

(** A submission that fails otherwise than with code 9 (another Last.fm
    code, or any other exception) changes nothing but the log: the mark the
    listener had, if any, stays, the stored session stays, and the batch goes
    on with the next listener. *)
Theorem other_failure_changes_nothing st l1 user l2 vs fm w1 answer :
  bot user = false ->
  voice user = Some vs ->
  self_deaf vs || deaf vs = false ->
  resolve_session e (fst (scrobble_users e track f np st l1)) (id user) = (fm, w1) ->
  scrobble fm = true ->
  truthy (sessionkey fm) = true ->
  last_fm e (calls w1) (id user) (make_call track f np fm (id user)) = answer ->
  answer <> Ok ->
  answer <> LastFmException 9 ->
  Forall (fun v => id v <> id user) l2 ->
  scrobble_users e track f np st (l1 ++ user :: l2)
  = scrobble_users e track f np
      (log_call (id user, make_call track f np fm (id user)) w1,
       snd (scrobble_users e track f np st l1)) l2
  /\ lastfm_users (snd (scrobble_users e track f np st (l1 ++ user :: l2))) !! id user
     = lastfm_users (snd (scrobble_users e track f np st l1)) !! id user
  /\ users_db (fst (scrobble_users e track f np st (l1 ++ user :: l2))) !! id user
     = users_db (fst (scrobble_users e track f np st l1)) !! id user
  /\ lastfm_sessions (fst (scrobble_users e track f np st (l1 ++ user :: l2)))
       !! id user = Some fm.
Proof.
  intros Hbot Hvoice Hdeaf Hres Hscr Hkey Hans Hnok Hn9 Hl2.
  rewrite scrobble_users_app. simpl.
  set (st1 := scrobble_users e track f np st l1) in *.
  assert (Hstep : scrobble_user e track f np st1 user
                  = (log_call (id user, make_call track f np fm (id user)) w1, snd st1)).
  { unfold scrobble_user. rewrite Hbot, Hvoice, Hdeaf, Hres, Hscr, Hkey. simpl.
    rewrite Hans. destruct answer as [|code|]; [congruence| |reflexivity].
    destruct (Z.eqb_spec code 9) as [-> | _]; [congruence | reflexivity]. }
  rewrite Hstep. split; [reflexivity|].
  set (st2 := (log_call (id user, make_call track f np fm (id user)) w1, snd st1)).
  destruct (scrobble_users_other e track f np (id user) l2 st2 Hl2)
    as (Hdb & Hses & Hmark & _).
  pose proof (resolve_session_cached _ _ _ _ Hres) as Hc.
  apply resolve_session_frame in Hres as (Hdb1 & _ & _ & _).
  rewrite Hdb, Hses, Hmark. simpl. by rewrite Hdb1.
Qed.

End Batch.

(** An instance: listener 4 has scrobbling switched off. *)
Lemma opted_out_listener_skipped_witness :
  List.filter (call_of 4)
    (calls (fst (scrobble_users env_ok song
                   {| artist := "Band"; name := "Song"; album := "Song";
                      duration_s := 200 |} false
                   ({| utcnow := 0; lastfm_sessions := ∅;
                       users_db := {[ 4 := {| scrobble := false; sessionkey := "key4";
                                              username := "someone" |} ]};
                       calls := [] |}, playing song 0 ∅)
                   [listener 1; listener 4])))
  = [].
Proof.
  apply (opted_out_listener_skipped env_ok song
           {| artist := "Band"; name := "Song"; album := "Song"; duration_s := 200 |}
           false 4 [listener 1; listener 4]
           ({| utcnow := 0; lastfm_sessions := ∅;
               users_db := {[ 4 := {| scrobble := false; sessionkey := "key4";
                                      username := "someone" |} ]};
               calls := [] |}, playing song 0 ∅)).
  left. reflexivity.
Defined.

(** An instance: the cache is empty before the batch. *)
Lemma batch_keeps_cache_coherent_witness :
  coherent env_ok
    (fst (scrobble_users env_ok song
            {| artist := "Band"; name := "Song"; album := "Song"; duration_s := 200 |}
            false (world_at 0, playing song 0 ∅) [listener 1; listener 2])).
Proof.
  apply (batch_keeps_cache_coherent env_ok song
           {| artist := "Band"; name := "Song"; album := "Song"; duration_s := 200 |}
           false [listener 1; listener 2] (world_at 0, playing song 0 ∅)).
  intros u g H. simpl in H. rewrite lookup_empty in H. discriminate H.
Defined.

(** An instance: listener 1 is accepted between listeners 2 and 3. *)
Lemma accepted_submission_marks_witness :
  lastfm_users
    (snd (scrobble_users env_ok song
            {| artist := "Band"; name := "Song"; album := "Song"; duration_s := 200 |}
            false (world_at 180000000, playing song 0 ∅)
            ([listener 2] ++ listener 1 :: [listener 3])))
    !! 1
  = Some {| last_url := url song; last_timestamp := Some 380000000 |}.
Proof.
  pose proof (accepted_submission_marks env_ok song
                {| artist := "Band"; name := "Song"; album := "Song"; duration_s := 200 |}
                false (world_at 180000000, playing song 0 ∅)
                [listener 2] (listener 1) [listener 3] listening (linked "key1")
                (snd (resolve_session env_ok
                        (fst (scrobble_users env_ok song
                                {| artist := "Band"; name := "Song"; album := "Song";
                                   duration_s := 200 |}
                                false (world_at 180000000, playing song 0 ∅)
                                [listener 2])) 1))) as H.
  apply H.
  - reflexivity.
  - reflexivity.
  - reflexivity.
  - vm_compute; reflexivity.
  - reflexivity.
  - reflexivity.
  - reflexivity.
  - split; vm_compute; discriminate.
  - split; vm_compute; discriminate.
  - repeat constructor; simpl; lia.
Defined.

(** An instance: the service answers listener 1 with code 29. *)
Lemma other_failure_changes_nothing_witness :
  lastfm_sessions
    (fst (scrobble_users
            {| me_voice := fun _ _ => true;
               last_fm := fun _ u _ => if u =? 1 then LastFmException 29 else Ok;
               default_lastfm := linked EmptyString |}
            song
            {| artist := "Band"; name := "Song"; album := "Song"; duration_s := 200 |}
            false (world_at 180000000, playing song 0 ∅)
            ([listener 2] ++ listener 1 :: [listener 3])))
    !! 1
  = Some (linked "key1").
Proof.
  pose proof (other_failure_changes_nothing
                {| me_voice := fun _ _ => true;
                   last_fm := fun _ u _ => if u =? 1 then LastFmException 29 else Ok;
                   default_lastfm := linked EmptyString |}
                song
                {| artist := "Band"; name := "Song"; album := "Song"; duration_s := 200 |}
                false (world_at 180000000, playing song 0 ∅)
                [listener 2] (listener 1) [listener 3] listening (linked "key1")
                (snd (resolve_session env_ok
                        (fst (scrobble_users env_ok song
                                {| artist := "Band"; name := "Song"; album := "Song";
                                   duration_s := 200 |}
                                false (world_at 180000000, playing song 0 ∅)
                                [listener 2])) 1))
                (LastFmException 29)) as H.
  apply H.
  - reflexivity.
  - reflexivity.
  - reflexivity.
  - vm_compute; reflexivity.
  - reflexivity.
  - reflexivity.
  - reflexivity.
  - discriminate.
  - discriminate.
  - repeat constructor; simpl; lia.
Defined.

End BatchFacts.

(** ** Properties of the guards of the listeners *)

Module ListenerFacts.

Import PyStr LastFm Gate Cases LastFmFacts.

Open Scope Z_scope.

Section Guards.

Variable e : Env.

(** The bot waits for its voice connection in steps of two seconds and
    goes on at the first poll that finds it: if the connection is missing at
    the first [k] polls and there at the next, the loop is left at
    [now + 2 s * k]. *)
Theorem wait_voice_first_connection g k : forall now extra,
  (forall j, (j < k)%nat -> me_voice e g (now + 2000000 * Z.of_nat j) = false) ->
  me_voice e g (now + 2000000 * Z.of_nat k) = true ->
  wait_voice e (S k + extra) g 3 now = Some (now + 2000000 * Z.of_nat k).
Proof.
  induction k as [|k IH]; intros now extra Hdown Hup.
  - replace (now + 2000000 * Z.of_nat 0) with now in * by lia.
    cbn [Nat.add wait_voice]. rewrite Hup. reflexivity.
  - cbn [Nat.add wait_voice].
    pose proof (Hdown 0%nat ltac:(lia)) as H0.
    replace (now + 2000000 * Z.of_nat 0) with now in H0 by lia.
    rewrite H0. cbn [negb].
    change (3 >? 0) with true. cbv iota.
    replace (now + 2000000 * Z.of_nat (S k))
      with ((now + 2000000) + 2000000 * Z.of_nat k) in * by lia.
    apply (IH (now + 2000000) extra); [|exact Hup].
    intros j Hj. specialize (Hdown (S j) ltac:(lia)).
    replace (now + 2000000 + 2000000 * Z.of_nat j)
      with (now + 2000000 * Z.of_nat (S j)) by lia.
    exact Hdown.
Qed.

(** Events that never lead to a submission: any event for a live stream or
    for a track of source "local" or "http", and a track-end event with a
    reason other than "FINISHED".  The listener returns with nothing
    changed. *)
Theorem dropped_events fuel w player track reason np users :
  is_stream track = true
  \/ sourceName track = "local" \/ sourceName track = "http"
  \/ (np = false /\ reason <> Some "FINISHED") ->
  startscrooble e fuel w player (Some track) reason np users = Returned (w, player).
Proof.
  intros H. apply startscrooble_rejected. unfold rejected.
  destruct H as [-> | [-> | [-> | [-> Hr]]]]; try reflexivity.
  - by rewrite orb_true_r.
  - by rewrite orb_true_r.
  - destruct (is_stream track || _); [reflexivity|]. simpl.
    assert (is_finished reason = false) as ->; [|reflexivity].
    destruct reason as [r|]; [|reflexivity]. simpl.
    destruct (String.eqb_spec r "FINISHED"); [congruence | reflexivity].
Qed.


End Guards.

(** The voice-state listener goes on to its call of [startscrooble] only
    for a member that is no bot and has moved into the channel of the
    guild's player, while the player has a current track, the member is
    among the channel's members, and the member holds no unexpired mark for
    that track. *)
Theorem vc_target_sound players w member before after player :
  vc_target players w member before after = Some player ->
  bot member = false
  /\ players !! guild_id member = Some player
  /\ (exists c ch cur,
        channel after = Some c
        /\ channel before <> Some c
        /\ last_channel player = Some ch /\ channel_id ch = c
        /\ member_in member (members ch) = true
        /\ current player = Some cur
        /\ marked w player cur member = false).
Proof.
  unfold vc_target.
  destruct (bot member); [discriminate|]. simpl.
  destruct (channel after) as [c|] eqn:Ha; [|discriminate]. simpl.
  destruct (same_channel (channel before) (Some c)) eqn:Hb; [discriminate|].
  destruct (players !! guild_id member) as [q|]; [|discriminate].
  destruct (same_channel (option_map channel_id (last_channel q)) (Some c)) eqn:Hc;
    [|discriminate]. simpl.
  destruct (current q) as [cur|] eqn:Hcur; [|discriminate].
  destruct (last_channel q) as [ch|] eqn:Hch; [|discriminate].
  destruct (member_in member (members ch)) eqn:Hin; [|discriminate]. simpl.
  destruct (marked w q cur member) eqn:Hm; [discriminate|].
  intros [= <-]. split; [reflexivity|]. split; [reflexivity|].
  exists c, ch, cur. simpl in Hc. apply Z.eqb_eq in Hc.
  repeat split; try assumption.
  - intros Hbc. rewrite Hbc in Hb. simpl in Hb. by rewrite Z.eqb_refl in Hb.
Qed.

(** An instance: the bot connects at the third poll. *)
Lemma wait_voice_first_connection_witness :
  wait_voice {| me_voice := fun _ t => (4000000 <=? t);
                last_fm := fun _ _ _ => Ok;
                default_lastfm := linked EmptyString |} 5 7 3 0
  = Some 4000000.
Proof.
  apply (wait_voice_first_connection
           {| me_voice := fun _ t => (4000000 <=? t);
              last_fm := fun _ _ _ => Ok;
              default_lastfm := linked EmptyString |} 7 2 0 2).
  - intros j Hj. simpl. destruct j as [|[|j]]; [reflexivity | reflexivity | lia].
  - reflexivity.
Defined.

(** An instance: a track-end event with reason "STOPPED". *)
Lemma dropped_events_witness :
  startscrooble env_ok 1 (world_at 180000000) (playing song 0 ∅) (Some song)
    (Some "STOPPED") false None
  = Returned (world_at 180000000, playing song 0 ∅).
Proof.
  apply (dropped_events env_ok 1 (world_at 180000000) (playing song 0 ∅) song
           (Some "STOPPED") false None).
  right; right; right. split; [reflexivity | discriminate].
Defined.


(** An instance: listener 1 joins the channel of the player. *)
Lemma vc_target_sound_witness :
  bot (listener 1) = false.
Proof.
  apply (vc_target_sound (<[5 := playing song 0 ∅]> ∅) (world_at 0) (listener 1)
           away listening (playing song 0 ∅)).
  reflexivity.
Defined.

(** An instance: the bot is connected when the loop is first entered. *)
Lemma wait_voice_exit_witness :
  me_voice env_ok 5 0 = true.
Proof.
  apply (wait_voice_exit env_ok 1 5 3 0 0); [lia | reflexivity].
Defined.

End ListenerFacts.

(** ** Properties of the token cache *)

Module TokenFacts.

Import PyStr Spotify Tokens Servers SpotifyFacts.

Open Scope Z_scope.

Section Visitor.

Variable n : Net.

Lemma no_credentials_visitor p :
  opt_truthy (client_id (client p)) && opt_truthy (client_secret (client p)) = false ->
  get_access_token n p = get_visitor_token n p.
Proof.
  unfold get_access_token, opt_truthy.
  destruct (client_id (client p)) as [id|]; [|reflexivity].
  destruct (client_secret (client p)) as [secret|]; [|reflexivity].
  by intros ->.
Qed.

(** The document the visitor branch puts in the cache. *)
Lemma get_visitor_token_result p tok ms :
  visitor_token n (trace p) !! "accessToken" = Some tok ->
  visitor_token n (trace p) !! "accessTokenExpirationTimestampMs" = Some (JNum ms) ->
  exists p1,
    get_visitor_token n p = (Ret tt, p1)
    /\ client_id (client p1) = client_id (client p)
    /\ client_secret (client p1) = client_secret (client p)
    /\ type (client p1) = "visitor"
    /\ spotify_cache (client p1) !! "access_token" = Some tok
    /\ spotify_cache (client p1) !! "expires_at"
       = Some (JNum (time n (trace p ++ [GetVisitorToken]) + ms))
    /\ spotify_cache (client p1) !! "type" = Some (JStr "visitor")
    /\ cache_file p1 = Some (spotify_cache (client p1))
    /\ trace p1 = (trace p ++ [GetVisitorToken; WriteCacheFile (spotify_cache (client p1))])%list.
Proof.
  intros Ht Hm. unfold get_visitor_token. rewrite Ht, Hm.
  eexists. split; [reflexivity|].
  repeat split; simpl; try reflexivity.
  by rewrite <- app_assoc.
Qed.

(** Without credentials: the token of a refresh is served from the cache
    for as long as the clock stays before the expiry stored with it, with no
    request and no write. *)
Theorem visitor_token_reused p tok ms :
  opt_truthy (client_id (client p)) && opt_truthy (client_secret (client p)) = false ->
  visitor_token n (trace p) !! "accessToken" = Some tok ->
  visitor_token n (trace p) !! "accessTokenExpirationTimestampMs" = Some (JNum ms) ->
  fst (get_access_token n p) = Ret tt
  /\ (time n (trace (snd (get_access_token n p)))
      < time n (trace p ++ [GetVisitorToken]) + ms ->
      get_valid_access_token n (snd (get_access_token n p))
      = (Ret tok, snd (get_access_token n p))).
Proof.
  intros Hc Ht Hm. rewrite (no_credentials_visitor p Hc).
  destruct (get_visitor_token_result p tok ms Ht Hm)
    as (p1 & -> & _ & _ & Hty & Htok & Hexp & Htype & _ & _).
  split; [reflexivity|]. simpl. intros Hlt.
  unfold get_valid_access_token, type_differs. rewrite Hexp, Htype, Hty, Htok.
  destruct (time n (trace p1) >=? _) eqn:E; [lia|]. reflexivity.
Qed.

(** Without credentials: a token that has expired, or whose cached type is
    not the client's, is replaced by exactly one request to the visitor
    endpoint, followed by one write of the cache file; the new token is the
    one returned. *)
Theorem stale_token_refreshed_once p t tok ms :
  opt_truthy (client_id (client p)) && opt_truthy (client_secret (client p)) = false ->
  spotify_cache (client p) !! "expires_at" = Some (JNum t) ->
  t <= time n (trace p) \/ type_differs (client p) = true ->
  visitor_token n (trace p) !! "accessToken" = Some tok ->
  visitor_token n (trace p) !! "accessTokenExpirationTimestampMs" = Some (JNum ms) ->
  exists p1,
    get_valid_access_token n p = (Ret tok, p1)
    /\ trace p1
       = (trace p ++ [GetVisitorToken; WriteCacheFile (spotify_cache (client p1))])%list
    /\ cache_file p1 = Some (spotify_cache (client p1))
    /\ spotify_cache (client p1) !! "expires_at"
       = Some (JNum (time n (trace p ++ [GetVisitorToken]) + ms)).
Proof.
  intros Hc He Hstale Ht Hm. unfold get_valid_access_token. rewrite He.
  assert ((time n (trace p) >=? t) || type_differs (client p) = true) as ->.
  { destruct Hstale as [Hle | ->]; [|apply orb_true_r].
    destruct (time n (trace p) >=? t) eqn:E; [reflexivity | lia]. }
  rewrite (no_credentials_visitor p Hc).
  destruct (get_visitor_token_result p tok ms Ht Hm)
    as (p1 & -> & _ & _ & _ & Htok & Hexp & _ & Hfile & Htr).
  rewrite Htok. exists p1. by repeat split.
Qed.

End Visitor.

(** The cache file carries the token over a restart: after a refresh
    without credentials, a new client without credentials that starts from
    the file, on any network and before the stored expiry, answers
    [get_valid_access_token] with the same token and sends nothing. *)
Theorem token_survives_restart n n' p tok ms :
  opt_truthy (client_id (client p)) && opt_truthy (client_secret (client p)) = false ->
  visitor_token n (trace p) !! "accessToken" = Some tok ->
  visitor_token n (trace p) !! "accessTokenExpirationTimestampMs" = Some (JNum ms) ->
  time n' [] < time n (trace p ++ [GetVisitorToken]) + ms ->
  get_valid_access_token n'
    (boot None None (cache_file (snd (get_access_token n p))))
  = (Ret tok, boot None None (cache_file (snd (get_access_token n p)))).
Proof.
  intros Hc Ht Hm Hlt. rewrite (no_credentials_visitor n p Hc).
  destruct (get_visitor_token_result n p tok ms Ht Hm)
    as (p1 & -> & _ & _ & _ & Htok & Hexp & Htype & Hfile & _).
  simpl. rewrite Hfile.
  unfold get_valid_access_token, type_differs, boot, init. simpl.
  rewrite Hexp, Htype, Htok. simpl.
  destruct (time n' [] >=? _) eqn:E; [lia|]. reflexivity.
Qed.

Section Operations.

Variable n : Net.

Lemma get_visitor_token_credentials p :
  client_id (client (snd (get_visitor_token n p))) = client_id (client p)
  /\ client_secret (client (snd (get_visitor_token n p))) = client_secret (client p).
Proof.
  unfold get_visitor_token.
  destruct (visitor_token n (trace p) !! "accessToken"); [|by split].
  destruct (visitor_token n (trace p) !! "accessTokenExpirationTimestampMs")
    as [[?|?|]|]; by split.
Qed.

Lemma get_access_token_none p :
  client_id (client p) = None -> client_secret (client p) = None ->
  client_id (client (snd (get_access_token n p))) = None
  /\ client_secret (client (snd (get_access_token n p))) = None.
Proof.
  intros Hi Hs. rewrite no_credentials_visitor by (by rewrite Hi).
  destruct (get_visitor_token_credentials p) as [-> ->]. by split.
Qed.

Lemma get_valid_access_token_none p :
  client_id (client p) = None -> client_secret (client p) = None ->
  client_id (client (snd (get_valid_access_token n p))) = None
  /\ client_secret (client (snd (get_valid_access_token n p))) = None.
Proof.
  intros Hi Hs. unfold get_valid_access_token.
  destruct (spotify_cache (client p) !! "expires_at") as [[?|t|]|]; try by split.
  destruct (_ || _).
  - pose proof (get_access_token_none p Hi Hs) as H.
    destruct (get_access_token n p) as [[[]|x] p1]; simpl in H; try exact H.
    by destruct (_ !! "access_token").
  - by destruct (_ !! "access_token").
Qed.

Lemma request_none fuel : forall path params p,
  client_id (client p) = None -> client_secret (client p) = None ->
  client_id (client (snd (request n fuel path params p))) = None
  /\ client_secret (client (snd (request n fuel path params p))) = None.
Proof.
  induction fuel as [|fuel IH]; intros path params p Hi Hs; simpl; [by split|].
  destruct (disabled (client p)); [by split|].
  pose proof (get_valid_access_token_none p Hi Hs) as H1.
  destruct (get_valid_access_token n p) as [[tok|x] p1]; simpl in H1; try exact H1.
  destruct (api n (trace p1) path params tok) as [status body].
  destruct (status =? 200); [exact H1|].
  destruct (status =? 401).
  { destruct H1 as [Hi1 Hs1].
    pose proof (get_access_token_none (emit (GetApi path params tok status) p1) Hi1 Hs1)
      as H3.
    destruct (get_access_token n _) as [[[]|x] p3]; simpl in H3; try exact H3.
    destruct H3. by apply IH. }
  destruct (status =? 404); [exact H1|].
  destruct (status =? 429); [exact H1|].
  destruct (400 <=? status); exact H1.
Qed.

Lemma run_none fuel ops : forall p,
  client_id (client p) = None -> client_secret (client p) = None ->
  client_id (client (run n fuel ops p)) = None
  /\ client_secret (client (run n fuel ops p)) = None.
Proof.
  induction ops as [|o ops IH]; intros p Hi Hs; simpl; [by split|].
  assert (client_id (client (exec n fuel o p)) = None
          /\ client_secret (client (exec n fuel o p)) = None) as [Hi' Hs'].
  { destruct o; simpl.
    - by apply request_none.
    - by apply get_access_token_none.
    - by apply get_valid_access_token_none. }
  by apply IH.
Qed.

(** When the credentials are refused (the token endpoint answers an error
    with its description), the client gives them up and takes a visitor
    token instead, in one call; and no operation of the client brings the
    credentials back. *)
Theorem refused_credentials_dropped p id secret tok ms :
  client_id (client p) = Some id ->
  client_secret (client p) = Some secret ->
  truthy id && truthy secret = true ->
  json_truthy (api_token n (trace p) id secret !! "error") = true ->
  is_Some (api_token n (trace p) id secret !! "error_description") ->
  visitor_token n (trace p ++ [PostApiToken id secret]) !! "accessToken" = Some tok ->
  visitor_token n (trace p ++ [PostApiToken id secret])
    !! "accessTokenExpirationTimestampMs" = Some (JNum ms) ->
  exists p1,
    get_access_token n p = (Ret tt, p1)
    /\ type (client p1) = "visitor"
    /\ spotify_cache (client p1) !! "access_token" = Some tok
    /\ trace p1 = (trace p ++ [PostApiToken id secret; GetVisitorToken;
                               WriteCacheFile (spotify_cache (client p1))])%list
    /\ forall fuel ops,
         client_id (client (run n fuel ops p1)) = None
         /\ client_secret (client (run n fuel ops p1)) = None.
Proof.
  intros Hi Hs Ht Herr [d Hd] Htok Hms.
  unfold get_access_token. rewrite Hi, Hs, Ht, Herr, Hd.
  set (q := set_client _ _).
  destruct (get_visitor_token_result n q tok ms Htok Hms)
    as (p1 & -> & Hi1 & Hs1 & Hty & Hc & _ & _ & _ & Htr).
  exists p1. split; [reflexivity|]. split; [exact Hty|]. split; [exact Hc|].
  split.
  - rewrite Htr. subst q. simpl. by rewrite <- app_assoc.
  - intros fuel ops. by apply run_none.
Qed.

Lemma kept_refl p : token_state_kept p p.
Proof. left. by repeat split. Qed.

Lemma kept_trans p1 p2 p3 :
  token_state_kept p1 p2 -> token_state_kept p2 p3 ->
  (count is_token_fetch (trace p2) <= count is_token_fetch (trace p3))%nat ->
  token_state_kept p1 p3.
Proof.
  intros [(A1 & A2 & A3 & A4) | A] [(B1 & B2 & B3 & B4) | B] Hle.
  - left. repeat split; congruence.
  - right. lia.
  - right. lia.
  - right. lia.
Qed.

Lemma kept_le p p' :
  token_state_kept p p' ->
  (count is_token_fetch (trace p) <= count is_token_fetch (trace p'))%nat.
Proof. intros [(_ & _ & _ & E) | L]; lia. Qed.

Lemma get_visitor_token_fetches p :
  (count is_token_fetch (trace p)
   < count is_token_fetch (trace (snd (get_visitor_token n p))))%nat.
Proof.
  unfold get_visitor_token.
  destruct (visitor_token n (trace p) !! "accessToken");
    [|simpl; rewrite count_emit; simpl; lia].
  destruct (visitor_token n (trace p) !! "accessTokenExpirationTimestampMs")
    as [[?|?|]|]; simpl; rewrite ?count_emit; simpl; lia.
Qed.

Lemma get_access_token_fetches p :
  (count is_token_fetch (trace p)
   < count is_token_fetch (trace (snd (get_access_token n p))))%nat.
Proof.
  unfold get_access_token.
  destruct (client_id (client p)) as [id|]; [|apply get_visitor_token_fetches].
  destruct (client_secret (client p)) as [secret|]; [|apply get_visitor_token_fetches].
  destruct (truthy id && truthy secret); [|apply get_visitor_token_fetches].
  destruct (json_truthy _).
  - destruct (_ !! "error_description"); [|simpl; rewrite count_emit; simpl; lia].
    eapply Nat.le_lt_trans; [|apply get_visitor_token_fetches].
    simpl. rewrite count_emit. simpl. lia.
  - destruct (_ !! "expires_in") as [[?|?|]|]; simpl; rewrite ?count_emit; simpl; lia.
Qed.

Lemma get_valid_access_token_kept p :
  token_state_kept p (snd (get_valid_access_token n p)).
Proof.
  unfold get_valid_access_token.
  destruct (spotify_cache (client p) !! "expires_at") as [[?|t|]|];
    try apply kept_refl.
  destruct (_ || _).
  - right. pose proof (get_access_token_fetches p) as F.
    destruct (get_access_token n p) as [[[]|x] p1]; simpl in F; try exact F.
    by destruct (_ !! "access_token").
  - destruct (_ !! "access_token"); apply kept_refl.
Qed.

Lemma request_frame_tokens fuel : forall path params p,
  (count is_token_fetch (trace p)
   <= count is_token_fetch (trace (snd (request n fuel path params p))))%nat.
Proof.
  induction fuel as [|fuel IH]; intros path params p; simpl; [lia|].
  destruct (disabled (client p)); [simpl; lia|].
  destruct (get_valid_access_token_frame n p) as (_ & _ & _ & T1).
  destruct (get_valid_access_token n p) as [[tok|x] p1]; simpl in T1; try exact T1.
  destruct (api n (trace p1) path params tok) as [status body].
  assert (T2 : (count is_token_fetch (trace p)
                <= count is_token_fetch (trace (emit (GetApi path params tok status) p1)))%nat).
  { simpl. rewrite count_emit. simpl. lia. }
  destruct (status =? 200); [exact T2|].
  destruct (status =? 401).
  { destruct (get_access_token_frame n (emit (GetApi path params tok status) p1))
      as (_ & _ & _ & T3).
    destruct (get_access_token n _) as [[[]|x] p3]; cbn [snd] in T3 |- *.
    - etransitivity; [|apply IH]. lia.
    - lia. }
  destruct (status =? 404); [exact T2|].
  destruct (status =? 429); [exact T2|].
  destruct (400 <=? status); exact T2.
Qed.

Lemma request_kept fuel : forall path params p,
  token_state_kept p (snd (request n fuel path params p)).
Proof.
  induction fuel as [|fuel IH]; intros path params p; simpl; [apply kept_refl|].
  destruct (disabled (client p)); [apply kept_refl|].
  pose proof (get_valid_access_token_kept p) as K1.
  destruct (get_valid_access_token n p) as [[tok|x] p1]; simpl in K1; try exact K1.
  destruct (api n (trace p1) path params tok) as [status body].
  assert (K2 : token_state_kept p (emit (GetApi path params tok status) p1)).
  { eapply kept_trans; [exact K1| |].
    - left. simpl. rewrite count_emit. simpl. repeat split; lia.
    - simpl. rewrite count_emit. simpl. lia. }
  destruct (status =? 200); [exact K2|].
  destruct (status =? 401).
  { pose proof (get_access_token_fetches (emit (GetApi path params tok status) p1)) as F3.
    pose proof (kept_le _ _ K2) as L2.
    destruct (get_access_token n _) as [[[]|x] p3]; cbn [snd] in F3 |- *.
    - right. pose proof (request_frame_tokens fuel path params p3). lia.
    - right. lia. }
  destruct (status =? 404); [exact K2|].
  destruct (status =? 429); [exact K2|].
  destruct (400 <=? status); exact K2.
Qed.

(** The cached token, the cache file and the type of the client change
    only when a token is requested: an operation that sends no token request
    leaves all three as they were. *)
Theorem token_state_needs_request fuel o p :
  count is_token_fetch (trace (exec n fuel o p)) = count is_token_fetch (trace p) ->
  spotify_cache (client (exec n fuel o p)) = spotify_cache (client p)
  /\ cache_file (exec n fuel o p) = cache_file p
  /\ type (client (exec n fuel o p)) = type (client p).
Proof.
  intros Heq.
  assert (K : token_state_kept p (exec n fuel o p)).
  { destruct o; simpl.
    - apply request_kept.
    - right. apply get_access_token_fetches.
    - apply get_valid_access_token_kept. }
  destruct K as [(K1 & K2 & K3 & _) | K]; [by repeat split | lia].
Qed.

Section Usable.

Hypothesis H : healthy n.

Lemma request_usable fuel : forall path params p,
  usable (client p) -> usable (client (snd (request n fuel path params p))).
Proof.
  induction fuel as [|fuel IH]; intros path params p U; simpl; [exact U|].
  destruct (disabled (client p)); [exact U|].
  destruct (get_valid_access_token_healthy n H p U) as (tok & p1 & -> & U1 & _).
  destruct (api n (trace p1) path params tok) as [status body].
  destruct (status =? 200); [exact U1|].
  destruct (status =? 401).
  { destruct (get_access_token_healthy n H (emit (GetApi path params tok status) p1))
      as (p3 & -> & U3 & _).
    by apply IH. }
  destruct (status =? 404); [exact U1|].
  destruct (status =? 429); [exact U1|].
  destruct (400 <=? status); exact U1.
Qed.

Lemma request_no_key_error fuel : forall path params p k,
  usable (client p) -> fst (request n fuel path params p) <> Exc (KeyError k).
Proof.
  induction fuel as [|fuel IH]; intros path params p k U; simpl; [discriminate|].
  destruct (disabled (client p)); [discriminate|].
  destruct (get_valid_access_token_healthy n H p U) as (tok & p1 & -> & U1 & _).
  destruct (api n (trace p1) path params tok) as [status body].
  destruct (status =? 200); [discriminate|].
  destruct (status =? 401).
  { destruct (get_access_token_healthy n H (emit (GetApi path params tok status) p1))
      as (p3 & -> & U3 & _).
    by apply IH. }
  destruct (status =? 404); [discriminate|].
  destruct (status =? 429); [discriminate|].
  destruct (400 <=? status); discriminate.
Qed.

(** With token endpoints that answer well-formed documents, a cache that
    holds a token and a numeric expiry keeps doing so through every
    operation, and no [request] raises [KeyError]. *)
Theorem usable_cache_kept fuel ops : forall p,
  usable (client p) ->
  usable (client (run n fuel ops p))
  /\ forall fuel' path params k,
       fst (request n fuel' path params (run n fuel ops p)) <> Exc (KeyError k).
Proof.
  induction ops as [|o ops IH]; intros p U; simpl.
  - split; [exact U|]. intros. by apply request_no_key_error.
  - apply IH. destruct o; simpl.
    + by apply request_usable.
    + by destruct (get_access_token_healthy n H p) as (p' & -> & U' & _).
    + by destruct (get_valid_access_token_healthy n H p U) as (tok & p' & -> & U' & _).
Qed.

End Usable.

End Operations.

(** An instance: a visitor token valid for an hour, asked for again at once. *)
Lemma visitor_token_reused_witness :
  get_valid_access_token (net 1000 "new" 3600000 (always 200))
    (snd (get_access_token (net 1000 "new" 3600000 (always 200))
            (boot None None None)))
  = (Ret (JStr "new"),
     snd (get_access_token (net 1000 "new" 3600000 (always 200))
            (boot None None None))).
Proof.
  apply (visitor_token_reused (net 1000 "new" 3600000 (always 200))
           (boot None None None) (JStr "new") 3600000).
  - reflexivity.
  - reflexivity.
  - reflexivity.
  - simpl. lia.
Defined.

(** An instance: the cached token expired at 500, the clock is at 1000. *)
Lemma stale_token_refreshed_once_witness :
  exists p1,
    get_valid_access_token (net 1000 "new" 3600000 (always 200))
      (boot None None (Some (cached "old" 500)))
    = (Ret (JStr "new"), p1)
    /\ trace p1 = [GetVisitorToken; WriteCacheFile (spotify_cache (client p1))]
    /\ cache_file p1 = Some (spotify_cache (client p1))
    /\ spotify_cache (client p1) !! "expires_at" = Some (JNum 3601000).
Proof.
  apply (stale_token_refreshed_once (net 1000 "new" 3600000 (always 200))
           (boot None None (Some (cached "old" 500))) 500 (JStr "new") 3600000).
  - reflexivity.
  - reflexivity.
  - left. simpl. lia.
  - reflexivity.
  - reflexivity.
Defined.

(** An instance: the process restarts at 2000 with the file written at 1000. *)
Lemma token_survives_restart_witness :
  get_valid_access_token (net 2000 "other" 3600000 (always 200))
    (boot None None
       (cache_file (snd (get_access_token (net 1000 "new" 3600000 (always 200))
                           (boot None None None)))))
  = (Ret (JStr "new"),
     boot None None
       (cache_file (snd (get_access_token (net 1000 "new" 3600000 (always 200))
                           (boot None None None))))).
Proof.
  apply (token_survives_restart (net 1000 "new" 3600000 (always 200))
           (net 2000 "other" 3600000 (always 200))
           (boot None None None) (JStr "new") 3600000).
  - reflexivity.
  - reflexivity.
  - reflexivity.
  - simpl. lia.
Defined.

(** An instance: the token endpoint refuses the credentials. *)
Lemma refused_credentials_dropped_witness :
  exists p1,
    get_access_token
      {| time := fun _ => 1000;
         api := fun _ _ _ _ => (200, "{}");
         visitor_token := fun _ => visitor_doc "new" 3600000;
         api_token := fun _ _ _ =>
           <["error" := JStr "invalid_client"]>
             (<["error_description" := JStr "Invalid client"]> ∅) |}
      (boot (Some "id") (Some "secret") None)
    = (Ret tt, p1)
    /\ type (client p1) = "visitor".
Proof.
  destruct (refused_credentials_dropped
              {| time := fun _ => 1000;
                 api := fun _ _ _ _ => (200, "{}");
                 visitor_token := fun _ => visitor_doc "new" 3600000;
                 api_token := fun _ _ _ =>
                   <["error" := JStr "invalid_client"]>
                     (<["error_description" := JStr "Invalid client"]> ∅) |}
              (boot (Some "id") (Some "secret") None) "id" "secret"
              (JStr "new") 3600000)
    as (p1 & H1 & H2 & _).
  - reflexivity.
  - reflexivity.
  - reflexivity.
  - reflexivity.
  - eexists. reflexivity.
  - reflexivity.
  - reflexivity.
  - exists p1. split; [exact H1 | exact H2].
Defined.

(** An instance: a request under a valid visitor token leaves the cache. *)
Lemma token_state_needs_request_witness :
  spotify_cache
    (client (exec (net 1000 "new" 3600000 (always 200)) 3 (Request "tracks/1" [])
               (boot None None (Some (cached "old" 5000)))))
  = cached "old" 5000.
Proof.
  apply (token_state_needs_request (net 1000 "new" 3600000 (always 200)) 3
           (Request "tracks/1" []) (boot None None (Some (cached "old" 5000)))).
  vm_compute. reflexivity.
Defined.

(** An instance: two requests on a server that answers 401 once. *)
Lemma usable_cache_kept_witness :
  usable (client (run (net 1000 "new" 3600000 (flaky 1)) 3
                    [Request "tracks/1" []; Request "albums/2" []]
                    (boot None None (Some (cached "old" 5000))))).
Proof.
  apply (usable_cache_kept (net 1000 "new" 3600000 (flaky 1))
           (healthy_net 1000 "new" 3600000 (flaky 1)) 3
           [Request "tracks/1" []; Request "albums/2" []]
           (boot None None (Some (cached "old" 5000)))).
  split; [exists 5000; reflexivity | exists (JStr "old"); reflexivity].
Defined.

(** An instance: room for five nested calls, against a server that always
    answers 401: five GETs, then [RecursionError]. *)
Lemma unanswered_401_recurses_witness :
  fst (request (net 1000 "new" 3600000 (always 401)) 5 "tracks/1" []
         (boot None None (Some (cached "old" 5000))))
  = Exc RecursionError
  /\ count is_get
       (trace (snd (request (net 1000 "new" 3600000 (always 401)) 5 "tracks/1" []
                      (boot None None (Some (cached "old" 5000))))))
     = (count is_get (trace (boot None None (Some (cached "old" 5000)))) + 5)%nat.
Proof.
  apply (unanswered_401_recurses (net 1000 "new" 3600000 (always 401))
           (healthy_net 1000 "new" 3600000 (always 401)) 5 "tracks/1" []
           (boot None None (Some (cached "old" 5000)))).
  - split; [exists 5000; reflexivity | exists (JStr "old"); reflexivity].
  - reflexivity.
  - intros log path params tok _. reflexivity.
Defined.

End TokenFacts.

(** ** Properties of the account-linking loop *)

Module LinkingFacts.

Import Linking.

Section Loop.

Variable get_session_key : nat -> string -> answer.

Lemma check_loop_bounded fuel : forall count polls v,
  (0 <= count)%Z -> (Z.to_nat count < fuel)%nat ->
  exists v' k,
    check_loop get_session_key fuel count polls v = Some (v', k)
    /\ (k <= polls + Z.to_nat count)%nat.
Proof.
  induction fuel as [|fuel IH]; intros count polls v Hc Hf; [lia|]. simpl.
  destruct (count >? 0)%Z eqn:E.
  - destruct (get_session_key polls (token v)) as [[|] [k|] [u|]|];
      try (eexists; eexists; split; [reflexivity | lia]).
    all: destruct (IH (count - 1)%Z (S polls) v) as (v' & k' & -> & Hk); try lia;
      exists v', k'; split; [reflexivity | lia].
  - eexists; eexists; split; [reflexivity | lia].
Qed.

(** The loop that waits for the user to authorise the token always ends:
    whatever the service answers, it has finished after at most 15 polls
    (one every 20 seconds). *)
Theorem check_session_loop_bounded extra v :
  exists v' k,
    check_session_loop get_session_key (16 + extra) v = Some (v', k)
    /\ (k <= 15)%nat.
Proof.
  destruct (check_loop_bounded (16 + extra) 15 0 v) as (v' & k & E & Hk);
    [lia | simpl; lia |].
  exists v', k. split; [exact E | simpl in Hk; lia].
Qed.

Lemma check_loop_errors k : forall fuel count polls v,
  (forall j, (j < k)%nat ->
     exists key name, get_session_key (polls + j) (token v) = Answer true key name) ->
  (Z.of_nat k <= count)%Z ->
  check_loop get_session_key (k + fuel) count polls v
  = check_loop get_session_key fuel (count - Z.of_nat k) (polls + k) v.
Proof.
  induction k as [|k IH]; intros fuel count polls v Herr Hc.
  - simpl. f_equal; lia.
  - cbn [Nat.add check_loop].
    destruct (count >? 0)%Z eqn:E; [|lia].
    destruct (Herr 0%nat ltac:(lia)) as (key & name & H0).
    rewrite Nat.add_0_r in H0. rewrite H0.
    rewrite (IH fuel (count - 1)%Z (S polls) v).
    + f_equal; lia.
    + intros j Hj. destruct (Herr (S j) ltac:(lia)) as (key' & name' & Hj').
      exists key', name'. rewrite <- Hj'. f_equal. lia.
    + lia.
Qed.

(** The first answer without an error links the account: if fewer than 15
    polls are answered with an error and the next carries a session, the
    view takes its key and user name, is stopped, and keeps the token and
    the link. *)
Theorem session_links_account k extra v key name :
  (k < 15)%nat ->
  (forall j, (j < k)%nat ->
     exists key' name', get_session_key j (token v) = Answer true key' name') ->
  get_session_key k (token v) = Answer false (Some key) (Some name) ->
  check_session_loop get_session_key (16 + extra) v
  = Some (stop (set_username name (set_session_key key v)), S k).
Proof.
  intros Hk Herr Hok. unfold check_session_loop.
  replace (16 + extra)%nat with (k + (S (15 - k + extra)))%nat by lia.
  rewrite check_loop_errors; [|exact Herr | lia].
  cbn [check_loop Nat.add].
  destruct (15 - Z.of_nat k >? 0)%Z eqn:E; [|lia].
  rewrite Hok. reflexivity.
Qed.

(** Fifteen polls answered with an error end the loop without a session:
    the token and the link are emptied, the session key and the user name
    stay as they were, and the view is not stopped by the loop. *)
Theorem link_expires_unanswered extra v :
  (forall j, (j < 15)%nat ->
     exists key name, get_session_key j (token v) = Answer true key name) ->
  check_session_loop get_session_key (16 + extra) v = Some (clear_link v, 15%nat).
Proof.
  intros Herr. unfold check_session_loop.
  replace (16 + extra)%nat with (15 + (S extra))%nat by lia.
  rewrite check_loop_errors; [|exact Herr | lia].
  reflexivity.
Qed.

(** An exception of the service stops the wait at once: after polls
    answered with an error, a poll that raises stores the error, empties the
    token and the link, and stops the view, without touching the session
    key. *)
Theorem service_failure_stops k extra v :
  (k < 15)%nat ->
  (forall j, (j < k)%nat ->
     exists key name, get_session_key j (token v) = Answer true key name) ->
  get_session_key k (token v) = Failure ->
  check_session_loop get_session_key (16 + extra) v
  = Some (fail ServiceError v, S k).
Proof.
  intros Hk Herr Hf. unfold check_session_loop.
  replace (16 + extra)%nat with (k + (S (15 - k + extra)))%nat by lia.
  rewrite check_loop_errors; [|exact Herr | lia].
  cbn [check_loop Nat.add].
  destruct (15 - Z.of_nat k >? 0)%Z eqn:E; [|lia].
  rewrite Hf. reflexivity.
Qed.

End Loop.

(** An instance: the user authorises the token before the third poll. *)
Lemma session_links_account_witness :
  check_session_loop
    (fun j _ => if (j <? 2)%nat then Answer true None None
                else Answer false (Some "key") (Some "name"))
    16
    {| session_key := EmptyString; username := EmptyString; token := "tok";
       auth_url := Some "http://www.last.fm/api/auth/"; error := None;
       stopped := false |}
  = Some ({| session_key := "key"; username := "name"; token := "tok";
             auth_url := Some "http://www.last.fm/api/auth/"; error := None;
             stopped := true |}, 3%nat).
Proof.
  apply (session_links_account
           (fun j _ => if (j <? 2)%nat then Answer true None None
                       else Answer false (Some "key") (Some "name"))
           2 0
           {| session_key := EmptyString; username := EmptyString; token := "tok";
              auth_url := Some "http://www.last.fm/api/auth/"; error := None;
              stopped := false |} "key" "name").
  - lia.
  - intros j Hj. exists None, None.
    destruct j as [|[|j]]; [reflexivity | reflexivity | lia].
  - reflexivity.
Defined.

(** An instance: the user never authorises the token. *)
Lemma link_expires_unanswered_witness :
  check_session_loop (fun _ _ => Answer true None None) 16
    {| session_key := EmptyString; username := EmptyString; token := "tok";
       auth_url := Some "http://www.last.fm/api/auth/"; error := None;
       stopped := false |}
  = Some ({| session_key := EmptyString; username := EmptyString;
             token := EmptyString; auth_url := Some EmptyString; error := None;
             stopped := false |}, 15%nat).
Proof.
  apply (link_expires_unanswered (fun _ _ => Answer true None None) 0
           {| session_key := EmptyString; username := EmptyString; token := "tok";
              auth_url := Some "http://www.last.fm/api/auth/"; error := None;
              stopped := false |}).
  intros j Hj. exists None, None. reflexivity.
Defined.

(** An instance: the service fails at the second poll. *)
Lemma service_failure_stops_witness :
  check_session_loop
    (fun j _ => if (j <? 1)%nat then Answer true None None else Failure) 16
    {| session_key := EmptyString; username := EmptyString; token := "tok";
       auth_url := Some "http://www.last.fm/api/auth/"; error := None;
       stopped := false |}
  = Some ({| session_key := EmptyString; username := EmptyString;
             token := EmptyString; auth_url := Some EmptyString;
             error := Some ServiceError; stopped := true |}, 2%nat).
Proof.
  apply (service_failure_stops
           (fun j _ => if (j <? 1)%nat then Answer true None None else Failure)
           1 0
           {| session_key := EmptyString; username := EmptyString; token := "tok";
              auth_url := Some "http://www.last.fm/api/auth/"; error := None;
              stopped := false |}).
  - lia.
  - intros j Hj. exists None, None. destruct j; [reflexivity | lia].
  - reflexivity.
Defined.

End LinkingFacts.
